(** * Text-File-Analyzer: the analysis engine and its word store

    A shallow embedding of [hashtable.c] (the chained hash table that counts
    words) and of [analyzer.c] (the single pass over the bytes of a file),
    followed by the properties of the two that the specification states.

    Conventions of the embedding.
    - C integers are mathematical integers reduced into the range of their
      type after every arithmetic operation: [int] is 32 bits, [long long]
      and [unsigned long] are 64 bits, [unsigned int] is 32 bits (LP64).
    - A C string is the list of the bytes that precede its terminator.
    - Whether plain [char] is signed is left to the platform: it is the
      section variable [char_signed].
    - [malloc], [calloc] and [strdup] succeed or fail as an [oracle] says;
      the oracle is threaded through every function that allocates.
    - The result of [fopen] is looked up in a [filesystem]. *)

From Stdlib Require Import ZArith Lia Strings.Byte Strings.Ascii Strings.String.
From stdpp Require Import base tactics option list gmap.

Open Scope Z_scope.

(** ** Integer types *)

Definition INT_MAX : Z := 2147483647.

(** Conversion to [int]: two's complement on 32 bits. *)
Definition to_int (z : Z) : Z := (z + 2147483648) mod 4294967296 - 2147483648.

(** Conversion to [long long]: two's complement on 64 bits. *)
Definition to_llong (z : Z) : Z :=
  (z + 9223372036854775808) mod 18446744073709551616 - 9223372036854775808.

(** Conversion to [unsigned int]. *)
Definition to_uint (z : Z) : Z := z mod 4294967296.

(** Conversion to [unsigned long]. *)
Definition to_ulong (z : Z) : Z := z mod 18446744073709551616.

(** ** Characters and strings *)

Definition cstring : Type := list byte.

#[global] Instance byte_eq_decision : EqDecision byte := Byte.byte_eq_dec.

#[global] Instance byte_countable : Countable byte :=
  inj_countable Byte.to_N Byte.of_N Byte.of_to_N.

(** The value of a byte read as [unsigned char], which is what [fgetc]
    returns. *)
Definition uchar_to_int (c : byte) : Z := Z.of_N (Byte.to_N c).

(** Storing an [int] into a [char] keeps its low eight bits. *)
Definition int_to_char (z : Z) : byte :=
  default x00 (Byte.of_N (Z.to_N (z mod 256))).

(** [<ctype.h>] in the "C" locale, the only one the program runs in since it
    never calls [setlocale]. *)
Definition isspace (c : Z) : bool := ((9 <=? c) && (c <=? 13)) || (c =? 32).

Definition isupper (c : Z) : bool := (65 <=? c) && (c <=? 90).

Definition islower (c : Z) : bool := (97 <=? c) && (c <=? 122).

Definition isalpha (c : Z) : bool := isupper c || islower c.

Definition tolower (c : Z) : Z := if isupper c then c + 32 else c.

(** ** The allocator *)

(** The outcomes of the allocation requests still to come, in order; once
    the list is used up every request succeeds. *)
Definition oracle : Type := list bool.

Definition alloc (o : oracle) : bool * oracle :=
  match o with
  | [] => (true, [])
  | b :: o' => (b, o')
  end.

(** No request answered by [o] fails. *)
Definition no_failure (o : oracle) : Prop := Forall (λ b, b = true) o.

(** ** hashtable.h *)

Record Node : Type := mkNode {
  word : cstring;
  count : Z
}.

(** A bucket is the chain of its nodes, head first; [next] is the tail. *)
Record HashTable : Type := mkHashTable {
  size : Z;
  table : list (list Node)
}.

(** ** analyzer.h *)

Record AppStats : Type := mkAppStats {
  filename : string;
  char_count : Z;
  word_count : Z;
  line_count : Z;
  char_freq : list Z;
  word_counts : option HashTable
}.

Definition filesystem : Type := string → option (list byte).

Definition MAX_WORD_LEN : Z := 100.

(** The local variables of [analyze_file] together with the objects it
    updates in place. [word_buffer] is the part of the array written so far,
    so that [word_buffer_index] is its length. *)
Record locals : Type := mkLocals {
  stats : AppStats;
  word_buffer : list byte;
  in_word : Z;
  heap : oracle
}.

(** ** Views of the word store *)

(** Every node of the store: bucket by bucket, each chain from its head. *)
Definition entries (ht : HashTable) : list Node := concat (table ht).

Definition node_pair (n : Node) : cstring * Z := (word n, count n).

(** The word-to-count mapping of the store. *)
Definition store_map (ht : HashTable) : gmap cstring Z :=
  list_to_map (node_pair <$> entries ht).

Definition sum_list_Z (l : list Z) : Z := foldr Z.add 0 l.

Definition sum_counts (ht : HashTable) : Z := sum_list_Z (count <$> entries ht).

Definition text (s : string) : list byte := list_byte_of_string s.

(** The hash as the specification words it: start from 5381 and, for each
    byte from left to right, take the accumulator times 33 plus the byte, on
    an unsigned accumulator of 64 bits; the bucket is the accumulator modulo
    the number of buckets. *)
Definition spec_djb2 (w : cstring) : Z :=
  fold_left (λ acc c, (acc * 33 + uchar_to_int c) mod 18446744073709551616) w 5381.

Definition spec_bucket_index (w : cstring) (bucket_count : Z) : Z :=
  spec_djb2 w mod bucket_count.

Definition ascii_word (w : cstring) : Prop := Forall (λ c, uchar_to_int c < 128) w.

Section Program.

(** Is plain [char] a signed type on the platform? *)
Variable char_signed : bool.

(** ** hashtable.c *)

(** [c = *word++] with [int c]: the value of a plain [char]. *)
Definition char_to_int (c : byte) : Z :=
  let u := uchar_to_int c in
  if char_signed && (128 <=? u) then u - 256 else u.

(** One turn of the loop of [hash]: [hash = ((hash << 5) + hash) + c] on
    [unsigned long]. *)
Definition hash_step (h : Z) (c : byte) : Z :=
  to_ulong (to_ulong (to_ulong (Z.shiftl h 5) + h) + char_to_int c).

(** The accumulator of [hash] when its loop ends. *)
Definition hash_acc (w : cstring) : Z := fold_left hash_step w 5381.

(** [hash]: the accumulator is an [unsigned long], the result an
    [unsigned int]. *)
Definition hash (w : cstring) : Z := to_uint (hash_acc w).

Definition create_hash_table (sz : Z) (o : oracle) : option HashTable * oracle :=
  if sz <? 1 then (None, o)
  else
    let '(ht_ok, o1) := alloc o in
    if negb ht_ok then (None, o1)
    else
      let '(table_ok, o2) := alloc o1 in
      if negb table_ok then (None, o2)
      else (Some {| size := sz; table := replicate (Z.to_nat sz) [] |}, o2).

(** [hash(word) % ht->size]: the [int] size is converted to [unsigned int]. *)
Definition bucket_index (ht : HashTable) (w : cstring) : Z :=
  hash w mod to_uint (size ht).

(** The [while] loop of [insert_word]: the chain with the count of the first
    node that holds [w] incremented, or [None] when the loop reaches the end
    of the chain. *)
Fixpoint increment_in_chain (w : cstring) (chain : list Node) : option (list Node) :=
  match chain with
  | [] => None
  | current :: rest =>
      if decide (word current = w)
      then Some ({| word := word current; count := to_int (count current + 1) |} :: rest)
      else (current ::.) <$> increment_in_chain w rest
  end.

Definition insert_word (ht : option HashTable) (w : option cstring) (o : oracle)
  : option HashTable * oracle :=
  match ht, w with
  | Some t, Some w =>
      let index := Z.to_nat (bucket_index t w) in
      let head := default [] (table t !! index) in
      match increment_in_chain w head with
      | Some chain => (Some {| size := size t; table := <[index := chain]> (table t) |}, o)
      | None =>
          let '(node_ok, o1) := alloc o in
          if negb node_ok then (Some t, o1)
          else
            let '(word_ok, o2) := alloc o1 in
            if negb word_ok then (Some t, o2)
            else
              let new_node := {| word := w; count := 1 |} in
              (Some {| size := size t; table := <[index := new_node :: head]> (table t) |}, o2)
      end
  | _, _ => (ht, o)
  end.

#[global] Arguments insert_word : simpl never.

(** ** analyzer.c *)

Definition set_char_count (s : AppStats) (v : Z) : AppStats :=
  {| filename := filename s; char_count := v; word_count := word_count s;
     line_count := line_count s; char_freq := char_freq s;
     word_counts := word_counts s |}.

Definition set_word_count (s : AppStats) (v : Z) : AppStats :=
  {| filename := filename s; char_count := char_count s; word_count := v;
     line_count := line_count s; char_freq := char_freq s;
     word_counts := word_counts s |}.

Definition set_line_count (s : AppStats) (v : Z) : AppStats :=
  {| filename := filename s; char_count := char_count s; word_count := word_count s;
     line_count := v; char_freq := char_freq s;
     word_counts := word_counts s |}.

Definition set_char_freq (s : AppStats) (v : list Z) : AppStats :=
  {| filename := filename s; char_count := char_count s; word_count := word_count s;
     line_count := line_count s; char_freq := v;
     word_counts := word_counts s |}.

Definition set_word_counts (s : AppStats) (v : option HashTable) : AppStats :=
  {| filename := filename s; char_count := char_count s; word_count := word_count s;
     line_count := line_count s; char_freq := char_freq s;
     word_counts := v |}.

(** [insert_word(stats->word_counts, word_buffer)] after the terminator has
    been written at [word_buffer_index]. *)
Definition insert_buffer (l : locals) : locals :=
  let '(ht, o) := insert_word (word_counts (stats l)) (Some (word_buffer l)) (heap l) in
  {| stats := set_word_counts (stats l) ht; word_buffer := word_buffer l;
     in_word := in_word l; heap := o |}.

(** The body of the [while] loop for one byte [b] that [fgetc] returned. *)
Definition analyze_byte (l : locals) (b : byte) : locals :=
  let c := uchar_to_int b in
  let s := stats l in
  let s := set_char_count s (to_llong (char_count s + 1)) in
  let s := if c =? 10 then set_line_count s (to_int (line_count s + 1)) else s in
  let s :=
    set_char_freq s
      (<[Z.to_nat c := to_int (default 0 (char_freq s !! Z.to_nat c) + 1)]> (char_freq s)) in
  let '(s, inw) :=
    if isspace c then (s, 0)
    else if in_word l =? 0 then (set_word_count s (to_int (word_count s + 1)), 1)
    else (s, in_word l) in
  let l := {| stats := s; word_buffer := word_buffer l; in_word := inw; heap := heap l |} in
  if isalpha c then
    if Z.of_nat (length (word_buffer l)) <? MAX_WORD_LEN - 1
    then {| stats := stats l; word_buffer := word_buffer l ++ [int_to_char (tolower c)];
            in_word := in_word l; heap := heap l |}
    else l
  else
    if 0 <? Z.of_nat (length (word_buffer l))
    then
      let l := insert_buffer l in
      {| stats := stats l; word_buffer := []; in_word := in_word l; heap := heap l |}
    else l.

(** The [while] loop over the bytes that remain in the stream. *)
Definition analyze_loop (input : list byte) (l : locals) : locals :=
  fold_left analyze_byte input l.

(** The locals as they are declared, before the loop. *)
Definition enter (s : AppStats) (o : oracle) : locals :=
  {| stats := s; word_buffer := []; in_word := 0; heap := o |}.

(** What follows the loop: the token still in the buffer is inserted. *)
Definition flush (l : locals) : locals :=
  if 0 <? Z.of_nat (length (word_buffer l)) then insert_buffer l else l.

(** [analyze_file]: the value returned, the statistics and the allocator. *)
Definition analyze_file (fs : filesystem) (s : AppStats) (o : oracle)
  : Z * AppStats * oracle :=
  match fs (filename s) with
  | None => (-1, s, o)
  | Some input =>
      let l := flush (analyze_loop input (enter s o)) in
      (0, stats l, heap l)
  end.


(** ** Callers and invariants *)

(** A sequence of calls of [insert_word] on the same store, in order; a
    [None] in the sequence is a call with a null word. *)
Fixpoint insert_all (ht : option HashTable) (ws : list (option cstring)) (o : oracle)
  : option HashTable * oracle :=
  match ws with
  | [] => (ht, o)
  | w :: ws' => let '(ht', o') := insert_word ht w o in insert_all ht' ws' o'
  end.

(** What [create_hash_table] establishes about the shape of a store: a
    positive [int] number of buckets, and as many buckets in the array. *)
Definition shaped (ht : HashTable) : Prop :=
  1 ≤ size ht ≤ INT_MAX ∧ length (table ht) = Z.to_nat (size ht).

(** The invariant of the store: it has its shape, every node lies in the
    bucket that [insert_word] computes for its word, and no word has two
    nodes. *)
Definition wf (ht : HashTable) : Prop :=
  shaped ht ∧
  (∀ i chain n, table ht !! i = Some chain → n ∈ chain →
                Z.to_nat (bucket_index ht (word n)) = i) ∧
  NoDup (word <$> entries ht).

(** [insert_word] seen on the word-to-count mapping. *)
Definition map_insert_word (m : gmap cstring Z) (w : cstring) (o : oracle)
  : gmap cstring Z * oracle :=
  match m !! w with
  | Some c => (<[w := to_int (c + 1)]> m, o)
  | None =>
      let '(node_ok, o1) := alloc o in
      if negb node_ok then (m, o1)
      else
        let '(word_ok, o2) := alloc o1 in
        if negb word_ok then (m, o2) else (<[w := 1]> m, o2)
  end.

(** The two requests that [insert_word] makes for a new node, [malloc] for
    the node and [strdup] for its word: do both succeed, and what remains of
    the oracle. *)
Definition node_alloc (o : oracle) : bool * oracle :=
  let '(node_ok, o1) := alloc o in
  if negb node_ok then (false, o1)
  else let '(word_ok, o2) := alloc o1 in (word_ok, o2).

#[global] Arguments map_insert_word : simpl never.

(** [insert_all] seen on the word-to-count mapping. *)
Fixpoint map_insert_all (m : gmap cstring Z) (ws : list (option cstring)) (o : oracle)
  : gmap cstring Z * oracle :=
  match ws with
  | [] => (m, o)
  | None :: ws' => map_insert_all m ws' o
  | Some w :: ws' => let '(m', o') := map_insert_word m w o in map_insert_all m' ws' o'
  end.

(** The counters that one turn of the loop of [analyze_file] updates without
    looking at the word store: [char_count], [word_count], [line_count],
    [char_freq] and the flag [in_word]. *)
Definition counters : Type := Z * Z * Z * list Z * Z.

Definition counters_of (l : locals) : counters :=
  (char_count (stats l), word_count (stats l), line_count (stats l),
   char_freq (stats l), in_word l).

Definition count_byte (v : counters) (b : byte) : counters :=
  let '(cc, wc, lc, freq, inw) := v in
  let c := uchar_to_int b in
  (to_llong (cc + 1),
   (if isspace c then wc else if inw =? 0 then to_int (wc + 1) else wc),
   (if c =? 10 then to_int (lc + 1) else lc),
   <[Z.to_nat c := to_int (default 0 (freq !! Z.to_nat c) + 1)]> freq,
   (if isspace c then 0 else if inw =? 0 then 1 else inw)).

(** The tokenizer of one turn of the loop, on the buffer alone: the buffer
    after the turn, and the token handed to [insert_word] if there is one. *)
Definition scan_byte (buf : list byte) (b : byte) : list byte * option cstring :=
  let c := uchar_to_int b in
  if isalpha c then
    (if Z.of_nat (length buf) <? MAX_WORD_LEN - 1
     then buf ++ [int_to_char (tolower c)] else buf, None)
  else if 0 <? Z.of_nat (length buf) then ([], Some buf) else (buf, None).

(** The tokens that the loop hands to [insert_word], and the buffer when the
    stream ends. *)
Fixpoint scan (buf : list byte) (input : list byte) : list cstring * list byte :=
  match input with
  | [] => ([], buf)
  | b :: rest =>
      let '(buf', tok) := scan_byte buf b in
      let '(toks, final) := scan buf' rest in
      (option_list tok ++ toks, final)
  end.

(** The pending token, as [flush] sees it. *)
Definition pending (buf : list byte) : list cstring :=
  if 0 <? Z.of_nat (length buf) then [buf] else [].

(** Every token that [analyze_file] hands to [insert_word], in order. *)
Definition tokens (input : list byte) : list cstring :=
  let '(toks, final) := scan [] input in toks ++ pending final.

(** The byte that an alphabetic byte is stored as in the buffer. *)
Definition fold_case (b : byte) : byte := int_to_char (tolower (uchar_to_int b)).

(** The statistics as [main] sets them up before it calls [analyze_file]:
    [AppStats stats = {0}], a zeroed table of 256 counts, and the store. *)
Definition fresh_stats (name : string) (ht : option HashTable) : AppStats :=
  {| filename := name; char_count := 0; word_count := 0; line_count := 0;
     char_freq := replicate 256 0; word_counts := ht |}.

(** How many bytes of the input have the value [c]. *)
Definition occurrences (c : Z) (input : list byte) : Z :=
  Z.of_nat (length (filter (λ b, uchar_to_int b = c) input)).

(** The frequency table in closed form: slot [i] counts the bytes of value
    [i], as an [int]. *)
Definition histogram (input : list byte) : list Z :=
  (λ i, to_int (occurrences (Z.of_nat i) input)) <$> seq 0 256.

(** The accumulator of [hash] in arithmetic: times 33 plus the value of the
    [char], modulo 2^64. *)
Definition djb2 (w : cstring) : Z :=
  fold_left (λ acc c, (acc * 33 + char_to_int c) mod 18446744073709551616) w 5381.

Definition alphabetic (b : byte) : Prop := isalpha (uchar_to_int b) = true.

(** The input read so far does not end inside a token: it is empty or its
    last byte is not alphabetic. *)
Definition ends_token (pre : list byte) : Prop :=
  from_option (λ d, isalpha (uchar_to_int d) = false) True (last pre).

(** How many of the calls in [ws] insert the word [w]. *)
Definition word_occurrences (w : cstring) (ws : list (option cstring)) : Z :=
  Z.of_nat (length (filter (λ x, x = Some w) ws)).

(** ** Further views of the statistics *)

(** The values of an [int] and of a [long long]. *)
Definition is_int (z : Z) : Prop := - 2147483648 ≤ z ≤ INT_MAX.

Definition is_llong (z : Z) : Prop :=
  - 9223372036854775808 ≤ z ≤ 9223372036854775807.

(** How many bytes of the input start a word in the sense of the word
    counter: bytes that are not white space and that come first or after a
    byte that is white space. [prev] is the byte before the input. *)
Definition word_starts_after (prev : byte) (input : list byte) : Z :=
  Z.of_nat (length (filter
    (λ p, isspace (uchar_to_int p.1) = true ∧ isspace (uchar_to_int p.2) = false)
    (zip (prev :: input) input))).

Definition word_starts (input : list byte) : Z := word_starts_after " "%byte input.

(** A token as the store is meant to hold them: one to 99 lower-case
    letters. *)
Definition token_ok (w : cstring) : Prop :=
  (1 ≤ length w ≤ 99)%nat ∧ Forall (λ c, islower (uchar_to_int c) = true) w.

(** Two inputs that differ at most in the case of their letters. *)
Definition same_case (input1 input2 : list byte) : Prop :=
  Forall2 (λ a b, fold_case a = fold_case b) input1 input2.

(** The statistics hold values of their C types. *)
Definition stats_ok (s : AppStats) : Prop :=
  is_llong (char_count s) ∧ is_int (word_count s) ∧ is_int (line_count s) ∧
  Forall is_int (char_freq s).

(** ** main.c: the command line *)

Record AnalysisOptions : Type := mkAnalysisOptions {
  show_overall_stats : bool;
  show_char_freq : bool;
  show_word_freq : bool;
  output_filename : option string
}.

(** What the argument loop of [main] has set: [options], [any_option_set]
    and [input_filename]. *)
Record arguments : Type := mkArguments {
  options : AnalysisOptions;
  any_option_set : bool;
  input_filename : option string
}.

(** [arg[0] == '-'] *)
Definition starts_with_dash (arg : string) : bool :=
  match arg with
  | String c _ => Ascii.eqb c "-"%char
  | EmptyString => false
  end.

(** The [for] loop of [main] over [argv[i]], [i] from 1 on; [None] is
    [return EXIT_FAILURE]. *)
Fixpoint parse_arguments (args : list string) (a : arguments) : option arguments :=
  match args with
  | [] => Some a
  | arg :: rest =>
      if String.eqb arg "-c"%string || String.eqb arg "-w"%string || String.eqb arg "-l"%string then
        parse_arguments rest
          {| options :=
               {| show_overall_stats := true;
                  show_char_freq := show_char_freq (options a);
                  show_word_freq := show_word_freq (options a);
                  output_filename := output_filename (options a) |};
             any_option_set := true;
             input_filename := input_filename a |}
      else if String.eqb arg "--freq"%string then
        parse_arguments rest
          {| options :=
               {| show_overall_stats := show_overall_stats (options a);
                  show_char_freq := true;
                  show_word_freq := true;
                  output_filename := output_filename (options a) |};
             any_option_set := true;
             input_filename := input_filename a |}
      else if String.eqb arg "-o"%string then
        match rest with
        | out :: rest' =>
            parse_arguments rest'
              {| options :=
                   {| show_overall_stats := show_overall_stats (options a);
                      show_char_freq := show_char_freq (options a);
                      show_word_freq := show_word_freq (options a);
                      output_filename := Some out |};
                 any_option_set := any_option_set a;
                 input_filename := input_filename a |}
        | [] => None
        end
      else if starts_with_dash arg then None
      else
        match input_filename a with
        | Some _ => None
        | None =>
            parse_arguments rest
              {| options := options a; any_option_set := any_option_set a;
                 input_filename := Some arg |}
        end
  end.

(** The variables of [main] before the loop. *)
Definition no_arguments : arguments :=
  {| options := {| show_overall_stats := false; show_char_freq := false;
                   show_word_freq := false; output_filename := None |};
     any_option_set := false;
     input_filename := None |}.

(** [main] up to the set-up of the data structures: the options and the
    input file name it goes on with, or [None] when it returns
    [EXIT_FAILURE]. [argv] starts with the name of the program. *)
Definition command_line (argv : list string) : option (AnalysisOptions * string) :=
  match argv with
  | [] | [_] => None
  | _ :: args =>
      match parse_arguments args no_arguments with
      | None => None
      | Some a =>
          match input_filename a with
          | None => None
          | Some input =>
              if any_option_set a then Some (options a, input)
              else Some ({| show_overall_stats := true; show_char_freq := true;
                            show_word_freq := true;
                            output_filename := output_filename (options a) |}, input)
          end
      end
  end.

(** Is some section of the report shown? *)
Definition flags_shown (o : AnalysisOptions) : bool :=
  show_overall_stats o || show_char_freq o || show_word_freq o.

(** What the argument loop guarantees about the variables [a'] it ends with,
    from the variables [a] it starts with, on the arguments [args]. *)
Definition parse_post (args : list string) (a a' : arguments) : Prop :=
  (show_char_freq (options a) = show_word_freq (options a) →
   show_char_freq (options a') = show_word_freq (options a')) ∧
  ((any_option_set a = true → flags_shown (options a) = true) →
   any_option_set a' = true → flags_shown (options a') = true) ∧
  (input_filename a' = input_filename a ∨
   ∃ f, input_filename a' = Some f ∧ f ∈ args ∧ starts_with_dash f = false) ∧
  ((output_filename (options a') = output_filename (options a) ∧ "-o"%string ∉ args) ∨
   ∃ l1 out l2, args = l1 ++ "-o"%string :: out :: l2 ∧
                output_filename (options a') = Some out).

(** * Properties *)

(** ** Integers and bytes *)

Lemma to_int_small z : - 2147483648 ≤ z ≤ INT_MAX → to_int z = z.
Proof.
  unfold to_int, INT_MAX. intros H.
  rewrite Z.mod_small by lia. lia.
Qed.

Lemma to_int_add_l a b : to_int (to_int a + b) = to_int (a + b).
Proof.
  unfold to_int. f_equal.
  replace (((a + 2147483648) mod 4294967296 - 2147483648 + b + 2147483648))
    with ((a + 2147483648) mod 4294967296 + b) by lia.
  replace (a + b + 2147483648) with ((a + 2147483648) + b) by lia.
  by rewrite Zplus_mod_idemp_l.
Qed.

Lemma to_llong_small z :
  - 9223372036854775808 ≤ z ≤ 9223372036854775807 → to_llong z = z.
Proof.
  unfold to_llong. intros H. rewrite Z.mod_small by lia. lia.
Qed.

Lemma to_llong_add_l a b : to_llong (to_llong a + b) = to_llong (a + b).
Proof.
  unfold to_llong. f_equal.
  replace ((a + 9223372036854775808) mod 18446744073709551616
           - 9223372036854775808 + b + 9223372036854775808)
    with ((a + 9223372036854775808) mod 18446744073709551616 + b) by lia.
  replace (a + b + 9223372036854775808) with ((a + 9223372036854775808) + b) by lia.
  by rewrite Zplus_mod_idemp_l.
Qed.

Lemma uchar_to_int_range b : 0 ≤ uchar_to_int b ≤ 255.
Proof.
  unfold uchar_to_int. pose proof (Byte.to_N_bounded b). lia.
Qed.

Lemma bucket_index_range ht w :
  shaped ht → 0 ≤ bucket_index ht w < size ht.
Proof.
  intros [Hs _]. unfold bucket_index, to_uint, INT_MAX in *.
  rewrite (Z.mod_small (size ht)) by lia.
  apply Z.mod_pos_bound. lia.
Qed.

Lemma bucket_lookup ht w :
  shaped ht → is_Some (table ht !! Z.to_nat (bucket_index ht w)).
Proof.
  intros Hsh. apply lookup_lt_is_Some.
  pose proof (bucket_index_range ht w Hsh). destruct Hsh as [_ ->]. lia.
Qed.

(** ** Chains and buckets *)

Lemma increment_in_chain_None w chain :
  increment_in_chain w chain = None ↔ w ∉ (word <$> chain).
Proof.
  induction chain as [|n chain IH]; simpl.
  - split; [intros _; apply not_elem_of_nil | done].
  - destruct (decide (word n = w)) as [->|Hne].
    + split; [done | intros H; exfalso; apply H; left].
    + rewrite fmap_None, IH, not_elem_of_cons. split; [by intros ?; split | by intros [_ ?]].
Qed.

Lemma increment_in_chain_Some w chain chain' :
  increment_in_chain w chain = Some chain' →
  ∃ c1 n c2, chain = c1 ++ (n :: c2) ∧ (w ∉ word <$> c1) ∧ word n = w ∧
             chain' = c1 ++ (mkNode w (to_int (count n + 1)) :: c2).
Proof.
  revert chain'. induction chain as [|n chain IH]; intros chain'; simpl; [done|].
  destruct (decide (word n = w)) as [Hw|Hne].
  - intros [= <-]. exists [], n, chain. rewrite Hw. split_and!; try done.
    apply not_elem_of_nil.
  - destruct (increment_in_chain w chain) as [r|] eqn:Hr; simpl; [|done].
    intros [= <-]. destruct (IH r eq_refl) as (c1 & m & c2 & -> & Hc1 & Hm & ->).
    exists (n :: c1), m, c2. split_and!; try done.
    rewrite fmap_cons, not_elem_of_cons. done.
Qed.

Lemma table_split (tbl : list (list Node)) i chain :
  tbl !! i = Some chain →
  ∃ pre post,
    concat tbl = pre ++ chain ++ post ∧
    (∀ chain', concat (<[i := chain']> tbl) = pre ++ chain' ++ post) ∧
    (∀ n, n ∈ pre ++ post → ∃ j c, j ≠ i ∧ tbl !! j = Some c ∧ n ∈ c).
Proof.
  intros H. pose proof (lookup_lt_Some _ _ _ H) as Hlt.
  exists (concat (take i tbl)), (concat (drop (S i) tbl)). split_and!.
  - rewrite <- (take_drop_middle tbl i chain H) at 1.
    by rewrite concat_app.
  - intros chain'. rewrite insert_take_drop by done. by rewrite concat_app.
  - intros n [Hn|Hn]%elem_of_app.
    + apply list_elem_of_In, in_concat in Hn as (c & Hc & Hn).
      apply list_elem_of_In, list_elem_of_lookup in Hc as [j Hj].
      pose proof (lookup_lt_Some _ _ _ Hj) as Hjlt. rewrite length_take in Hjlt.
      rewrite lookup_take_lt in Hj by lia.
      exists j, c. split_and!; [lia | done | by apply list_elem_of_In].
    + apply list_elem_of_In, in_concat in Hn as (c & Hc & Hn).
      apply list_elem_of_In, list_elem_of_lookup in Hc as [j Hj].
      rewrite lookup_drop in Hj.
      exists (S i + j)%nat, c. split_and!; [lia | done | by apply list_elem_of_In].
Qed.

(** ** [insert_word] *)

Lemma insert_word_unfold t w o :
  insert_word (Some t) (Some w) o =
  let index := Z.to_nat (bucket_index t w) in
  let head := default [] (table t !! index) in
  match increment_in_chain w head with
  | Some chain => (Some (mkHashTable (size t) (<[index := chain]> (table t))), o)
  | None =>
      let '(ok, o') := node_alloc o in
      if ok
      then (Some (mkHashTable (size t) (<[index := mkNode w 1 :: head]> (table t))), o')
      else (Some t, o')
  end.
Proof.
  unfold insert_word, node_alloc. cbv zeta.
  destruct (increment_in_chain _ _); [done|].
  destruct (alloc o) as [[] o1]; simpl; [|done].
  by destruct (alloc o1) as [[] o2].
Qed.

Lemma insert_word_spec ht w o ht' o' :
  shaped ht →
  insert_word (Some ht) (Some w) o = (ht', o') →
  let idx := Z.to_nat (bucket_index ht w) in
  ∃ t' pre chain post chain',
    ht' = Some t' ∧ size t' = size ht ∧
    table t' = <[idx := chain']> (table ht) ∧
    table ht !! idx = Some chain ∧
    entries ht = pre ++ chain ++ post ∧
    entries t' = pre ++ chain' ++ post ∧
    (∀ n, n ∈ pre ++ post → ∃ j c, j ≠ idx ∧ table ht !! j = Some c ∧ n ∈ c) ∧
    ((∃ c1 n c2, chain = c1 ++ (n :: c2) ∧ (w ∉ word <$> c1) ∧ word n = w ∧
                 chain' = c1 ++ (mkNode w (to_int (count n + 1)) :: c2) ∧ o' = o)
     ∨ ((w ∉ word <$> chain) ∧ node_alloc o = (true, o') ∧ chain' = mkNode w 1 :: chain)
     ∨ ((w ∉ word <$> chain) ∧ node_alloc o = (false, o') ∧ chain' = chain ∧ t' = ht)).
Proof.
  intros Hsh. rewrite insert_word_unfold. cbv zeta.
  destruct (bucket_lookup ht w Hsh) as [chain Hchain]. rewrite Hchain. simpl.
  destruct (table_split _ _ _ Hchain) as (pre & post & Hent & Hins & Hout).
  destruct (increment_in_chain w chain) as [chain'|] eqn:Hinc.
  - intros [= <- <-].
    exists (mkHashTable (size ht) (<[Z.to_nat (bucket_index ht w) := chain']> (table ht))).
    exists pre, chain, post, chain'. split_and!; try done.
    { unfold entries. simpl. apply Hins. }
    left. apply increment_in_chain_Some in Hinc as (c1 & n & c2 & ? & ? & ? & ?).
    by exists c1, n, c2.
  - apply increment_in_chain_None in Hinc.
    destruct (node_alloc o) as [[] o2] eqn:Halloc; intros [= <- <-].
    + exists (mkHashTable (size ht)
               (<[Z.to_nat (bucket_index ht w) := mkNode w 1 :: chain]> (table ht))).
      exists pre, chain, post, (mkNode w 1 :: chain). split_and!; try done.
      { unfold entries. simpl. apply Hins. }
      right. by left.
    + exists ht, pre, chain, post, chain. split_and!; try done.
      { by rewrite list_insert_id. }
      right. by right.
Qed.

(** ** The store as a map *)

Lemma node_pair_fst (l : list Node) : (node_pair <$> l).*1 = word <$> l.
Proof. rewrite <- list_fmap_compose. done. Qed.

Lemma perm_middle {A} (pre c1 c2 post : list A) x :
  pre ++ (c1 ++ x :: c2) ++ post ≡ₚ x :: (pre ++ (c1 ++ c2) ++ post).
Proof.
  rewrite <- (Permutation_middle c1 c2 x). simpl.
  by rewrite <- Permutation_middle.
Qed.

Lemma store_map_lookup_Some ht k v :
  NoDup (word <$> entries ht) →
  store_map ht !! k = Some v ↔ mkNode k v ∈ entries ht.
Proof.
  intros Hnd. unfold store_map.
  rewrite <- elem_of_list_to_map by by rewrite node_pair_fst.
  rewrite list_elem_of_fmap. split.
  - intros ([k' v'] & [= -> ->] & Hin). done.
  - intros Hin. by exists (mkNode k v).
Qed.

Lemma store_map_lookup_None ht k :
  store_map ht !! k = None ↔ k ∉ word <$> entries ht.
Proof.
  unfold store_map. rewrite <- node_pair_fst. symmetry. apply not_elem_of_list_to_map.
Qed.

Lemma store_map_perm ht l :
  NoDup (word <$> entries ht) →
  node_pair <$> entries ht ≡ₚ l →
  store_map ht = list_to_map l.
Proof.
  intros Hnd Hperm. unfold store_map. apply list_to_map_proper; [|done].
  by rewrite node_pair_fst.
Qed.

(** A word that is not in its own bucket is nowhere in the store. *)
Lemma wf_absent ht w chain :
  wf ht →
  table ht !! Z.to_nat (bucket_index ht w) = Some chain →
  (w ∉ word <$> chain) →
  w ∉ word <$> entries ht.
Proof.
  intros (Hsh & Hplace & Hnd) Hchain Hw.
  intros (n & -> & Hn)%list_elem_of_fmap.
  apply list_elem_of_In, in_concat in Hn as (c & Hc & Hn).
  apply list_elem_of_In, list_elem_of_lookup in Hc as [j Hj].
  apply list_elem_of_In in Hn.
  rewrite (Hplace j c n Hj Hn) in Hchain.
  apply Hw, list_elem_of_fmap. exists n. split; [done|]. congruence.
Qed.

Lemma insert_word_wf ht w o ht' o' :
  wf ht →
  insert_word (Some ht) w o = (ht', o') →
  ∃ t', ht' = Some t' ∧ wf t' ∧ size t' = size ht.
Proof.
  intros Hwf Hins.
  destruct w as [w|]; [|unfold insert_word in Hins; injection Hins as <- <-; eauto].
  pose proof Hwf as (Hsh & Hplace & Hnd).
  destruct (insert_word_spec _ _ _ _ _ Hsh Hins)
    as (t' & pre & chain & post & chain' & -> & Hsz & Htbl & Hchain & Hent & Hent'
        & Hout & Hcases).
  exists t'. split; [done|]. split; [|done].
  assert (Hwords: ∀ n, n ∈ chain' → word n = w ∨ n ∈ chain).
  { intros n Hn. destruct Hcases as [(c1 & m & c2 & -> & _ & Hm & -> & _)
      | [(_ & _ & ->) | (_ & _ & -> & _)]].
    - rewrite elem_of_app, elem_of_cons in Hn. rewrite elem_of_app, elem_of_cons.
      destruct Hn as [?|[->|?]]; auto.
    - apply elem_of_cons in Hn as [->|?]; auto.
    - auto. }
  split_and!.
  - destruct Hsh as [? Hlen]. split; [by rewrite Hsz|].
    by rewrite Htbl, length_insert, Hsz.
  - intros i c n Hi Hn. unfold bucket_index. rewrite Hsz. fold (bucket_index ht (word n)).
    rewrite Htbl in Hi.
    destruct (decide (i = Z.to_nat (bucket_index ht w))) as [->|Hne].
    + rewrite list_lookup_insert_eq in Hi by (by eapply lookup_lt_Some). injection Hi as <-.
      destruct (Hwords n Hn) as [->|Hn']; [done|]. by eapply Hplace.
    + rewrite list_lookup_insert_ne in Hi by done. by eapply Hplace.
  - rewrite Hent'. rewrite Hent in Hnd.
    destruct Hcases as [(c1 & m & c2 & -> & _ & Hm & -> & _)
      | [(Hw & _ & ->) | (_ & _ & -> & _)]]; [| |done].
    + revert Hnd. rewrite !fmap_app, !fmap_cons. simpl. by rewrite Hm.
    + rewrite fmap_app, fmap_app, fmap_cons. simpl.
      rewrite <- Permutation_middle. apply NoDup_cons. split.
      * rewrite <- !fmap_app, <- Hent. by eapply wf_absent.
      * by rewrite <- !fmap_app.
Qed.

Lemma map_insert_word_unfold m w o :
  map_insert_word m w o =
  match m !! w with
  | Some c => (<[w := to_int (c + 1)]> m, o)
  | None => let '(ok, o') := node_alloc o in
            if ok then (<[w := 1]> m, o') else (m, o')
  end.
Proof.
  unfold map_insert_word, node_alloc. destruct (m !! w); [done|].
  destruct (alloc o) as [[] o1]; simpl; [|done].
  by destruct (alloc o1) as [[] o2].
Qed.

Lemma insert_word_store_map ht w o t' o' :
  wf ht →
  insert_word (Some ht) (Some w) o = (Some t', o') →
  (store_map t', o') = map_insert_word (store_map ht) w o.
Proof.
  intros Hwf Hins. pose proof Hwf as (Hsh & Hplace & Hnd).
  destruct (insert_word_wf ht (Some w) o _ _ Hwf Hins) as (? & [= <-] & (_ & _ & Hnd') & _).
  destruct (insert_word_spec _ _ _ _ _ Hsh Hins)
    as (t & pre & chain & post & chain' & [= <-] & Hsz & Htbl & Hchain & Hent & Hent'
        & Hout & Hcases).
  rewrite map_insert_word_unfold.
  destruct Hcases as [(c1 & m & c2 & -> & _ & Hm & -> & ->)
      | [(Hw & Ha & ->) | (Hw & Ha & -> & ->)]].
  - assert (Hperm : node_pair <$> entries ht ≡ₚ
                    (w, count m) :: (node_pair <$> pre ++ (c1 ++ c2) ++ post)).
    { rewrite Hent, perm_middle, fmap_cons. unfold node_pair at 1. by rewrite Hm. }
    assert (Hperm' : node_pair <$> entries t' ≡ₚ
                    (w, to_int (count m + 1)) :: (node_pair <$> pre ++ (c1 ++ c2) ++ post)).
    { by rewrite Hent', perm_middle, fmap_cons. }
    rewrite (store_map_perm _ _ Hnd Hperm), (store_map_perm _ _ Hnd' Hperm').
    simpl. by rewrite lookup_insert_eq, insert_insert_eq.
  - pose proof (wf_absent _ _ _ Hwf Hchain Hw) as Habs.
    apply store_map_lookup_None in Habs. rewrite Habs, Ha.
    assert (Hperm' : node_pair <$> entries t' ≡ₚ (w, 1) :: (node_pair <$> entries ht)).
    { pose proof (perm_middle pre [] chain post (mkNode w 1)) as Hp. simpl in Hp.
      by rewrite Hent', Hent, Hp, fmap_cons. }
    by rewrite (store_map_perm _ _ Hnd' Hperm').
  - pose proof (wf_absent _ _ _ Hwf Hchain Hw) as Habs.
    apply store_map_lookup_None in Habs. by rewrite Habs, Ha.
Qed.

(** ** [create_hash_table] and sequences of insertions *)

Lemma create_hash_table_Some sz o ht o' :
  create_hash_table sz o = (Some ht, o') →
  1 ≤ sz ∧ ht = mkHashTable sz (replicate (Z.to_nat sz) []).
Proof.
  unfold create_hash_table. destruct (sz <? 1) eqn:Hsz; [done|].
  destruct (alloc o) as [[] o1]; simpl; [|done].
  destruct (alloc o1) as [[] o2]; simpl; [|done].
  intros [= <- <-]. split; [lia | done].
Qed.

Lemma concat_replicate_nil {A} n : concat (replicate n (@nil A)) = [].
Proof. induction n; simpl; done. Qed.

Lemma create_hash_table_wf sz o ht o' :
  sz ≤ INT_MAX →
  create_hash_table sz o = (Some ht, o') →
  wf ht ∧ size ht = sz ∧ entries ht = [] ∧ store_map ht = ∅.
Proof.
  intros Hmax [Hsz ->]%create_hash_table_Some.
  assert (Hent : entries (mkHashTable sz (replicate (Z.to_nat sz) [])) = []).
  { unfold entries. simpl. apply concat_replicate_nil. }
  split; [|by unfold store_map; rewrite Hent].
  unfold wf, shaped. rewrite Hent. simpl. split_and!.
  - lia.
  - done.
  - by rewrite length_replicate.
  - intros i chain n [-> _]%lookup_replicate Hn. by apply elem_of_nil in Hn.
  - constructor.
Qed.

Lemma alloc_no_failure o : no_failure o → ∃ o', alloc o = (true, o') ∧ no_failure o'.
Proof.
  intros H. destruct H as [|b o' -> H]; simpl.
  - exists []. split; [done | constructor].
  - by exists o'.
Qed.

Lemma node_alloc_no_failure o :
  no_failure o → ∃ o', node_alloc o = (true, o') ∧ no_failure o'.
Proof.
  intros H. unfold node_alloc.
  destruct (alloc_no_failure o H) as (o1 & -> & H1). simpl.
  destruct (alloc_no_failure o1 H1) as (o2 & -> & H2). eauto.
Qed.

Lemma create_hash_table_no_failure sz o :
  1 ≤ sz → no_failure o →
  ∃ ht o', create_hash_table sz o = (Some ht, o') ∧ no_failure o'.
Proof.
  intros Hsz H. unfold create_hash_table.
  destruct (sz <? 1) eqn:E; [lia|].
  destruct (alloc_no_failure o H) as (o1 & -> & H1). simpl.
  destruct (alloc_no_failure o1 H1) as (o2 & -> & H2). simpl. eauto.
Qed.

Lemma insert_all_app ht ws1 ws2 o :
  insert_all ht (ws1 ++ ws2) o =
  let '(ht1, o1) := insert_all ht ws1 o in insert_all ht1 ws2 o1.
Proof.
  revert ht o. induction ws1 as [|w ws1 IH]; intros ht o; simpl.
  - done.
  - destruct (insert_word ht w o) as [ht' o']. apply IH.
Qed.

Lemma insert_all_wf ht ws o ht' o' :
  wf ht →
  insert_all (Some ht) ws o = (ht', o') →
  ∃ t', ht' = Some t' ∧ wf t' ∧ size t' = size ht ∧
        (store_map t', o') = map_insert_all (store_map ht) ws o.
Proof.
  revert ht o. induction ws as [|w ws IH]; intros ht o Hwf; simpl.
  - intros [= <- <-]. eauto.
  - destruct (insert_word (Some ht) w o) as [ht1 o1] eqn:Hins.
    destruct (insert_word_wf _ _ _ _ _ Hwf Hins) as (t1 & -> & Hwf1 & Hsz1).
    intros Hall. destruct (IH _ _ Hwf1 Hall) as (t' & -> & Hwf' & Hsz' & Hmap).
    exists t'. split_and!; try done; [congruence|].
    rewrite Hmap. destruct w as [w|].
    + by rewrite <- (insert_word_store_map _ _ _ _ _ Hwf Hins).
    + unfold insert_word in Hins. by injection Hins as <- <-.
Qed.

(** ** The loop of [analyze_file], piece by piece *)

Lemma analyze_byte_counters l b :
  counters_of (analyze_byte l b) = count_byte (counters_of l) b.
Proof.
  unfold analyze_byte, counters_of, count_byte, insert_buffer.
  destruct l as [[fn cc wc lc freq ht] buf inw o]. simpl.
  repeat (case_match; simpl in *; simplify_eq); try done.
Qed.

Lemma analyze_loop_counters input l :
  counters_of (analyze_loop input l) = fold_left count_byte input (counters_of l).
Proof.
  revert l. induction input as [|b input IH]; intros l; simpl; [done|].
  unfold analyze_loop in *. simpl. by rewrite IH, analyze_byte_counters.
Qed.

Lemma analyze_byte_filename l b :
  filename (stats (analyze_byte l b)) = filename (stats l).
Proof.
  unfold analyze_byte, insert_buffer.
  destruct l as [[fn cc wc lc freq ht] buf inw o]. simpl.
  repeat (case_match; simpl in *; simplify_eq); try done.
Qed.

Lemma analyze_byte_tokenizer l b :
  word_buffer (analyze_byte l b) = (scan_byte (word_buffer l) b).1 ∧
  (word_counts (stats (analyze_byte l b)), heap (analyze_byte l b)) =
    insert_all (word_counts (stats l))
               (Some <$> option_list (scan_byte (word_buffer l) b).2) (heap l).
Proof.
  unfold analyze_byte, scan_byte, insert_buffer.
  destruct l as [[fn cc wc lc freq ht] buf inw o]. simpl.
  repeat (case_match; simpl in *; simplify_eq); try done.
  all: split; [done|].
  all: match goal with
       | H1 : ?x = (?a, ?b), H2 : _ = (?c, ?d) |- (?a, ?b) = (?c, ?d) =>
           rewrite <- H1, <- H2; reflexivity
       end.
Qed.

Lemma analyze_loop_tokenizer input l :
  word_buffer (analyze_loop input l) = (scan (word_buffer l) input).2 ∧
  (word_counts (stats (analyze_loop input l)), heap (analyze_loop input l)) =
    insert_all (word_counts (stats l)) (Some <$> (scan (word_buffer l) input).1) (heap l).
Proof.
  revert l. induction input as [|b input IH]; intros l; simpl; [done|].
  unfold analyze_loop in *. simpl.
  destruct (IH (analyze_byte l b)) as [IH1 IH2].
  destruct (analyze_byte_tokenizer l b) as [Hb1 Hb2].
  destruct (scan_byte (word_buffer l) b) as [buf' tok]. simpl in *.
  rewrite Hb1 in IH1, IH2.
  destruct (scan buf' input) as [toks final]. simpl in *.
  split; [done|]. rewrite IH2, fmap_app, insert_all_app, <- Hb2. done.
Qed.

Lemma insert_buffer_view l :
  counters_of (insert_buffer l) = counters_of l ∧
  filename (stats (insert_buffer l)) = filename (stats l) ∧
  (word_counts (stats (insert_buffer l)), heap (insert_buffer l)) =
    insert_word (word_counts (stats l)) (Some (word_buffer l)) (heap l).
Proof.
  unfold insert_buffer. by destruct (insert_word _ _ _) as [ht o].
Qed.

Lemma analyze_loop_filename input l :
  filename (stats (analyze_loop input l)) = filename (stats l).
Proof.
  revert l. induction input as [|b input IH]; intros l; simpl; [done|].
  unfold analyze_loop in *. simpl. by rewrite IH, analyze_byte_filename.
Qed.

Lemma flush_view l :
  counters_of (flush l) = counters_of l ∧
  filename (stats (flush l)) = filename (stats l) ∧
  (word_counts (stats (flush l)), heap (flush l)) =
    insert_all (word_counts (stats l)) (Some <$> pending (word_buffer l)) (heap l).
Proof.
  unfold flush, pending. destruct (0 <? _); [|done].
  destruct (insert_buffer_view l) as (? & ? & Hins). split_and!; try done.
  rewrite Hins. simpl. by destruct (insert_word _ _ _).
Qed.

(** [analyze_file] on a file that opens: the counters come from folding
    [count_byte] over the bytes, and the store from inserting the [tokens]. *)
Lemma analyze_file_Some fs s o input :
  fs (filename s) = Some input →
  ∃ s' o' inw,
    analyze_file fs s o = (0, s', o') ∧
    filename s' = filename s ∧
    (char_count s', word_count s', line_count s', char_freq s', inw) =
      fold_left count_byte input
        (char_count s, word_count s, line_count s, char_freq s, 0) ∧
    (word_counts s', o') = insert_all (word_counts s) (Some <$> tokens input) o.
Proof.
  intros Hopen. unfold analyze_file. rewrite Hopen.
  set (l := analyze_loop input (enter s o)).
  exists (stats (flush l)), (heap (flush l)), (in_word (flush l)).
  destruct (flush_view l) as (Hc & Hf & Hw).
  pose proof (analyze_loop_counters input (enter s o)) as Hlc.
  pose proof (analyze_loop_filename input (enter s o)) as Hlf.
  destruct (analyze_loop_tokenizer input (enter s o)) as [Hbuf Hlw].
  fold l in Hlc, Hlf, Hbuf, Hlw. split_and!.
  - done.
  - by rewrite Hf, Hlf.
  - unfold counters_of in Hc, Hlc. simpl in Hlc. by rewrite <- Hlc, <- Hc.
  - rewrite Hw. unfold tokens. simpl in Hbuf, Hlw.
    destruct (scan [] input) as [toks final]. simpl in *.
    by rewrite fmap_app, insert_all_app, <- Hlw, Hbuf.
Qed.

Lemma entries_of_singleton t w c :
  wf t → store_map t = {[w := c]} → entries t = [mkNode w c].
Proof.
  intros (_ & _ & Hnd) Hmap.
  assert (Hperm : node_pair <$> entries t ≡ₚ [(w, c)]).
  { rewrite <- (map_to_list_singleton (M := gmap cstring) w c), <- Hmap.
    unfold store_map. symmetry. apply map_to_list_to_map. by rewrite node_pair_fst. }
  apply Permutation_singleton_r in Hperm.
  destruct (entries t) as [|[w' c'] [|??]]; simplify_eq/=.
  unfold node_pair in *. by simplify_eq/=.
Qed.

(** ** The counters in closed form *)

Lemma occurrences_cons c b input :
  occurrences c (b :: input) =
  (if decide (uchar_to_int b = c) then 1 else 0) + occurrences c input.
Proof.
  unfold occurrences. rewrite filter_cons.
  destruct (decide (uchar_to_int b = c)); simpl; lia.
Qed.

Lemma occurrences_nonneg c input : 0 ≤ occurrences c input.
Proof. unfold occurrences. lia. Qed.

Lemma occurrences_replicate c n b :
  occurrences c (replicate n b) = if decide (uchar_to_int b = c) then Z.of_nat n else 0.
Proof.
  induction n as [|n IH].
  - by destruct (decide _).
  - rewrite replicate_S, occurrences_cons, IH. destruct (decide _); lia.
Qed.

Lemma occurrences_app c l1 l2 :
  occurrences c (l1 ++ l2) = occurrences c l1 + occurrences c l2.
Proof. unfold occurrences. rewrite filter_app, length_app. lia. Qed.

Lemma histogram_lookup input i :
  (i < 256)%nat → histogram input !! i = Some (to_int (occurrences (Z.of_nat i) input)).
Proof.
  intros Hi. unfold histogram. rewrite list_lookup_fmap, lookup_seq_lt by done. done.
Qed.

Lemma histogram_length input : length (histogram input) = 256%nat.
Proof. unfold histogram. by rewrite length_fmap, length_seq. Qed.

Lemma histogram_snoc input b :
  <[Z.to_nat (uchar_to_int b) :=
      to_int (default 0 (histogram input !! Z.to_nat (uchar_to_int b)) + 1)]>
    (histogram input) = histogram (input ++ [b]).
Proof.
  pose proof (uchar_to_int_range b) as Hb.
  apply list_eq. intros i.
  destruct (decide (i < 256)%nat) as [Hi|Hi].
  - rewrite (histogram_lookup (input ++ [b])) by done.
    rewrite occurrences_app, occurrences_cons.
    change (occurrences (Z.of_nat i) []) with 0.
    destruct (decide (i = Z.to_nat (uchar_to_int b))) as [->|Hne].
    + rewrite list_lookup_insert_eq by (rewrite histogram_length; lia).
      rewrite histogram_lookup by lia. simpl. rewrite to_int_add_l.
      rewrite decide_True by lia. by rewrite Z.add_0_r.
    + rewrite list_lookup_insert_ne by done. rewrite histogram_lookup by done.
      rewrite decide_False by lia. by rewrite !Z.add_0_r.
  - rewrite !lookup_ge_None_2; [done | | ].
    + rewrite histogram_length. lia.
    + rewrite length_insert, histogram_length. lia.
Qed.

(** From the state that [main] sets up, the loop leaves the length of the
    input in [char_count] (as a [long long]) and the histogram of the input
    in [char_freq]. *)
Lemma fold_count_byte_fresh input :
  let v := fold_left count_byte input (0, 0, 0, replicate 256 0, 0) in
  v.1.1.1.1 = to_llong (Z.of_nat (length input)) ∧ v.1.2 = histogram input.
Proof.
  induction input as [|b input IH] using rev_ind.
  - split; reflexivity.
  - rewrite fold_left_app. simpl.
    destruct (fold_left count_byte input _) as [[[[cc wc] lc] freq] inw].
    simpl in *. destruct IH as [-> ->]. split.
    + by rewrite to_llong_add_l, length_app, Nat2Z.inj_add.
    + apply histogram_snoc.
Qed.

Lemma sum_list_Z_add {A} (f g : A → Z) l :
  sum_list_Z ((λ x, f x + g x) <$> l) = sum_list_Z (f <$> l) + sum_list_Z (g <$> l).
Proof.
  induction l as [|x l IH]; [done|].
  rewrite !fmap_cons. unfold sum_list_Z in *. simpl. lia.
Qed.

Lemma sum_indicator b :
  sum_list_Z ((λ i : nat, if decide (uchar_to_int b = Z.of_nat i) then 1 else 0) <$> seq 0 256)
  = 1.
Proof. destruct b; vm_compute; reflexivity. Qed.

Lemma sum_occurrences input :
  sum_list_Z ((λ i : nat, occurrences (Z.of_nat i) input) <$> seq 0 256)
  = Z.of_nat (length input).
Proof.
  induction input as [|b input IH].
  - reflexivity.
  - erewrite list_fmap_ext; [|intros ???; apply occurrences_cons].
    rewrite sum_list_Z_add, sum_indicator, IH. simpl. lia.
Qed.

Lemma occurrences_le_length c input : occurrences c input ≤ Z.of_nat (length input).
Proof. unfold occurrences. pose proof (length_filter (λ b, uchar_to_int b = c) input). lia. Qed.


Lemma sum_list_Z_bound {A} (f : A → Z) (l : list A) M :
  (∀ x, f x ≤ M) → sum_list_Z (f <$> l) ≤ Z.of_nat (length l) * M.
Proof.
  intros Hf. induction l as [|x l IH]; [done|].
  rewrite fmap_cons. unfold sum_list_Z in *. simpl length. simpl foldr.
  specialize (Hf x). lia.
Qed.

(** What [analyze_file] leaves in [char_count] and [char_freq] when [main]
    has set the statistics up. *)
Lemma analyze_file_fresh_counters fs name ht o input :
  fs name = Some input →
  ∃ s' o',
    analyze_file fs (fresh_stats name ht) o = (0, s', o') ∧
    char_count s' = to_llong (Z.of_nat (length input)) ∧
    char_freq s' = histogram input.
Proof.
  intros Hopen.
  destruct (analyze_file_Some fs (fresh_stats name ht) o input Hopen)
    as (s' & o' & inw & Hrun & _ & Hcount & _).
  destruct (fold_count_byte_fresh input) as [Hcc Hfreq].
  exists s', o'. split; [done|].
  change (fold_left count_byte input (0, 0, 0, replicate 256 0, 0))
    with (fold_left count_byte input
            (char_count (fresh_stats name ht), word_count (fresh_stats name ht),
             line_count (fresh_stats name ht), char_freq (fresh_stats name ht), 0))
    in Hcc, Hfreq.
  rewrite <- Hcount in Hcc, Hfreq. done.
Qed.

(** ** Frame properties on the mapping *)

Lemma map_insert_word_other m w o k :
  k ≠ w → (map_insert_word m w o).1 !! k = m !! k.
Proof.
  intros Hne. rewrite map_insert_word_unfold.
  destruct (m !! w); simpl; [by rewrite lookup_insert_ne|].
  destruct (node_alloc o) as [[] o']; simpl; [by rewrite lookup_insert_ne | done].
Qed.

Lemma map_insert_all_other m ws o k :
  Some k ∉ ws → (map_insert_all m ws o).1 !! k = m !! k.
Proof.
  revert m o. induction ws as [|[w|] ws IH]; intros m o Hk; simpl; [done| |].
  - apply not_elem_of_cons in Hk as [Hne Hk].
    pose proof (map_insert_word_other m w o k) as Hw.
    destruct (map_insert_word m w o) as [m' o']. simpl in Hw.
    rewrite IH by done. apply Hw. congruence.
  - apply not_elem_of_cons in Hk as [_ Hk]. by apply IH.
Qed.

Lemma filter_word_unique (l : list Node) n :
  NoDup (word <$> l) → n ∈ l → filter (λ m, word m = word n) l = [n].
Proof.
  induction l as [|m l IH]; intros Hnd Hn; [by apply elem_of_nil in Hn|].
  rewrite fmap_cons in Hnd. apply NoDup_cons in Hnd as [Hm Hnd].
  assert (Hnone : ∀ k, k ∉ (word <$> l) → filter (λ m, word m = k) l = []).
  { clear. intros k Hk. induction l as [|x l IH]; [done|].
    rewrite fmap_cons in Hk. apply not_elem_of_cons in Hk as [? ?].
    rewrite filter_cons, decide_False by done. by apply IH. }
  rewrite filter_cons. apply elem_of_cons in Hn as [->|Hn].
  - rewrite decide_True by done. by rewrite Hnone.
  - rewrite decide_False; [by apply IH|].
    intros Heq. apply Hm. rewrite Heq. apply list_elem_of_fmap. by exists n.
Qed.

(** ** The hash *)

Lemma hash_step_arith h c :
  hash_step h c = (h * 33 + char_to_int c) mod 18446744073709551616.
Proof.
  unfold hash_step, to_ulong. rewrite Z.shiftl_mul_pow2 by lia.
  change (2 ^ 5) with 32.
  rewrite Zplus_mod_idemp_l, <- Z.add_assoc, Zplus_mod_idemp_l. f_equal. lia.
Qed.

Lemma hash_acc_djb2 w : hash_acc w = djb2 w.
Proof.
  unfold hash_acc, djb2. generalize 5381.
  induction w as [|c w IH]; intros h; simpl; [done|].
  by rewrite hash_step_arith, IH.
Qed.

Lemma djb2_spec w : char_signed = false ∨ ascii_word w → djb2 w = spec_djb2 w.
Proof.
  intros Hw. unfold djb2, spec_djb2. generalize 5381.
  induction w as [|c w IH]; intros h; simpl; [done|].
  assert (Hc : char_to_int c = uchar_to_int c).
  { unfold char_to_int. destruct Hw as [->|Hw]; [done|].
    apply Forall_cons in Hw as [Hc _].
    destruct (128 <=? uchar_to_int c) eqn:E; [lia|]. by rewrite andb_false_r. }
  rewrite Hc. apply IH. destruct Hw as [?|Hw]; [by left|].
  right. by apply Forall_cons in Hw as [_ ?].
Qed.

Lemma bucket_index_arith t w :
  shaped t → bucket_index t w = (djb2 w mod 4294967296) mod size t.
Proof.
  intros [Hs _]. unfold bucket_index, hash, to_uint, INT_MAX in *.
  rewrite hash_acc_djb2. f_equal. apply Z.mod_small. lia.
Qed.

(** ** What an insertion leaves in the allocator and in the store *)

Lemma map_insert_word_no_failure m w o :
  no_failure o →
  no_failure (map_insert_word m w o).2 ∧ is_Some ((map_insert_word m w o).1 !! w).
Proof.
  intros Hok. rewrite map_insert_word_unfold. destruct (m !! w) as [c|] eqn:Hm; simpl.
  - split; [done|]. rewrite lookup_insert_eq. eauto.
  - destruct (node_alloc_no_failure o Hok) as (o' & -> & Hok'). simpl.
    split; [done|]. rewrite lookup_insert_eq. eauto.
Qed.

Lemma map_insert_word_keeps m w o k :
  is_Some (m !! k) → is_Some ((map_insert_word m w o).1 !! k).
Proof.
  intros Hk. destruct (decide (k = w)) as [->|Hne].
  - rewrite map_insert_word_unfold. destruct Hk as [c ->]. simpl.
    rewrite lookup_insert_eq. eauto.
  - by rewrite map_insert_word_other.
Qed.

Lemma map_insert_all_keeps m ws o k :
  is_Some (m !! k) → is_Some ((map_insert_all m ws o).1 !! k).
Proof.
  revert m o. induction ws as [|[w|] ws IH]; intros m o Hk; simpl; [done| |by apply IH].
  pose proof (map_insert_word_keeps m w o k Hk) as Hw.
  destruct (map_insert_word m w o) as [m' o']. by apply IH.
Qed.

Lemma map_insert_all_present m ws o w :
  no_failure o → Some w ∈ ws → is_Some ((map_insert_all m ws o).1 !! w).
Proof.
  revert m o. induction ws as [|[w'|] ws IH]; intros m o Hok Hw; simpl.
  - by apply elem_of_nil in Hw.
  - pose proof (map_insert_word_no_failure m w' o Hok) as [Hok' Hin].
    destruct (map_insert_word m w' o) as [m' o']. simpl in *.
    apply elem_of_cons in Hw as [[= ->]|Hw].
    + by apply map_insert_all_keeps.
    + by apply IH.
  - apply elem_of_cons in Hw as [?|Hw]; [done|]. by apply IH.
Qed.

(** ** The tokenizer *)

Lemma analyze_loop_app l1 l2 l :
  analyze_loop (l1 ++ l2) l = analyze_loop l2 (analyze_loop l1 l).
Proof. unfold analyze_loop. apply fold_left_app. Qed.

Lemma scan_app buf l1 l2 :
  scan buf (l1 ++ l2) =
  ((scan buf l1).1 ++ (scan (scan buf l1).2 l2).1, (scan (scan buf l1).2 l2).2).
Proof.
  revert buf. induction l1 as [|b l1 IH]; intros buf; simpl.
  - by destruct (scan buf l2).
  - destruct (scan_byte buf b) as [buf' tok]. rewrite IH.
    destruct (scan buf' l1) as [t1 b1]. simpl.
    destruct (scan b1 l2) as [t2 b2]. simpl. by rewrite app_assoc.
Qed.

Lemma scan_ends_token buf pre :
  pre ≠ [] → ends_token pre → (scan buf pre).2 = [].
Proof.
  intros Hne Hend. destruct pre as [|b pre] using rev_ind; [done|]. clear IHpre Hne.
  unfold ends_token in Hend. rewrite last_snoc in Hend. simpl in Hend.
  rewrite scan_app. simpl. unfold scan_byte. rewrite Hend.
  destruct (scan buf pre).2 as [|c final]; [done|].
  destruct (0 <? _) eqn:E; [done|]. apply Z.ltb_ge in E. simpl length in E. lia.
Qed.

Lemma scan_run buf run :
  Forall alphabetic run →
  (length buf ≤ 99)%nat →
  scan buf run = ([], take 99 (buf ++ (fold_case <$> run))).
Proof.
  revert buf. induction run as [|b run IH]; intros buf Hrun Hlen; simpl.
  - by rewrite app_nil_r, take_ge.
  - apply Forall_cons in Hrun as [Hb Hrun]. unfold scan_byte.
    unfold alphabetic in Hb. rewrite Hb. unfold MAX_WORD_LEN.
    destruct (Z.of_nat (length buf) <? 100 - 1) eqn:Hfull.
    + apply Z.ltb_lt in Hfull.
      rewrite IH; [|done|rewrite length_app; simpl; lia].
      by rewrite <- app_assoc.
    + apply Z.ltb_ge in Hfull. rewrite IH by done. simpl.
      rewrite !take_app_le by lia. done.
Qed.

Lemma fold_case_run_length run : length (take 99 (fold_case <$> run)) = (length run `min` 99)%nat.
Proof. rewrite length_take, length_fmap. lia. Qed.

Lemma scan_run_delimiter run d :
  run ≠ [] → Forall alphabetic run → isalpha (uchar_to_int d) = false →
  scan [] (run ++ [d]) = ([take 99 (fold_case <$> run)], []).
Proof.
  intros Hne Hrun Hd. rewrite scan_app, scan_run by (done || simpl; lia). simpl.
  unfold scan_byte. rewrite Hd.
  assert (Hlen : (0 < length (take 99 (fold_case <$> run)))%nat).
  { rewrite fold_case_run_length. destruct run; [done|]. simpl. lia. }
  destruct (0 <? _) eqn:E; [done|]. apply Z.ltb_ge in E. lia.
Qed.

(** When the input read so far does not end inside a token, the buffer is
    empty. *)
Lemma analyze_loop_ends_token pre s o :
  ends_token pre → word_buffer (analyze_loop pre (enter s o)) = [].
Proof.
  intros Hend. destruct (analyze_loop_tokenizer pre (enter s o)) as [-> _]. simpl.
  destruct (decide (pre = [])) as [->|Hne]; [done|]. by apply scan_ends_token.
Qed.

(** A run of alphabetic bytes read with an empty buffer fills the buffer
    with its first 99 bytes, lower case, and leaves the store alone. *)
Lemma analyze_loop_run run l :
  word_buffer l = [] → Forall alphabetic run →
  word_buffer (analyze_loop run l) = take 99 (fold_case <$> run) ∧
  word_counts (stats (analyze_loop run l)) = word_counts (stats l) ∧
  heap (analyze_loop run l) = heap l.
Proof.
  intros Hbuf Hrun. destruct (analyze_loop_tokenizer run l) as [Hb Hw].
  rewrite Hbuf, scan_run in Hb, Hw by (done || simpl; lia). simpl in *.
  split; [done|]. by injection Hw.
Qed.

Lemma insert_all_single ht w o : insert_all ht [w] o = insert_word ht w o.
Proof. simpl. by destruct (insert_word ht w o). Qed.

(** A run of alphabetic bytes that starts a token and is followed by a byte
    that is not alphabetic: one call of [insert_word], and an empty buffer. *)
Lemma analyze_loop_run_delimiter s o pre run d :
  ends_token pre → run ≠ [] → Forall alphabetic run →
  isalpha (uchar_to_int d) = false →
  let before := analyze_loop pre (enter s o) in
  let l := analyze_loop (pre ++ run ++ [d]) (enter s o) in
  word_buffer l = [] ∧
  (word_counts (stats l), heap l) =
    insert_word (word_counts (stats before)) (Some (take 99 (fold_case <$> run)))
                (heap before).
Proof.
  intros Hend Hne Hrun Hd before l. subst l. rewrite analyze_loop_app. fold before.
  destruct (analyze_loop_tokenizer (run ++ [d]) before) as [Hb Hw].
  assert (Hempty : word_buffer before = []) by by apply analyze_loop_ends_token.
  rewrite Hempty in Hb, Hw.
  rewrite scan_run_delimiter in Hb, Hw by done. simpl fst in Hw. simpl snd in Hb.
  split; [done|]. rewrite Hw. apply insert_all_single.
Qed.

(** A run of alphabetic bytes that starts a token and ends the file: the
    loop leaves it in the buffer and the store alone, and [analyze_file]
    then makes one call of [insert_word]. *)
Lemma analyze_file_run_end fs s o pre run :
  fs (filename s) = Some (pre ++ run) →
  ends_token pre → run ≠ [] → Forall alphabetic run →
  let before := analyze_loop pre (enter s o) in
  let l := analyze_loop (pre ++ run) (enter s o) in
  let token := take 99 (fold_case <$> run) in
  word_buffer l = token ∧
  word_counts (stats l) = word_counts (stats before) ∧
  heap l = heap before ∧
  ∃ s' o',
    analyze_file fs s o = (0, s', o') ∧
    (word_counts s', o') =
      insert_word (word_counts (stats before)) (Some token) (heap before).
Proof.
  intros Hopen Hend Hne Hrun before l token.
  assert (Hl : l = analyze_loop run before) by apply analyze_loop_app.
  destruct (analyze_loop_run run before (analyze_loop_ends_token pre s o Hend) Hrun)
    as (Hbuf & Hwc & Hheap).
  rewrite <- Hl in Hbuf, Hwc, Hheap. fold token in Hbuf.
  split_and!; try done.
  unfold analyze_file. rewrite Hopen. fold l.
  exists (stats (flush l)), (heap (flush l)). split; [done|].
  unfold flush. rewrite Hbuf.
  assert (Hlen : (0 < length token)%nat).
  { unfold token. rewrite fold_case_run_length. destruct run; [done|]. simpl. lia. }
  destruct (0 <? Z.of_nat (length token)) eqn:E; [|apply Z.ltb_ge in E; lia].
  destruct (insert_buffer_view l) as (_ & _ & ->). by rewrite Hbuf, Hwc, Hheap.
Qed.

(** ** Counts *)

Lemma to_int_lower z : - 2147483648 ≤ to_int z.
Proof.
  unfold to_int. pose proof (Z.mod_pos_bound (z + 2147483648) 4294967296). lia.
Qed.

Lemma to_int_succ_ge c : c < INT_MAX → c ≤ to_int (c + 1).
Proof.
  intros Hc. destruct (decide (- 2147483648 ≤ c + 1)) as [Hlow|Hlow].
  - rewrite to_int_small by lia. lia.
  - pose proof (to_int_lower (c + 1)). lia.
Qed.

Lemma sum_list_Z_app l1 l2 : sum_list_Z (l1 ++ l2) = sum_list_Z l1 + sum_list_Z l2.
Proof.
  unfold sum_list_Z. induction l1 as [|x l1 IH]; simpl; lia.
Qed.

Lemma sum_counts_split (pre chain post : list Node) :
  sum_list_Z (count <$> pre ++ chain ++ post) =
  sum_list_Z (count <$> pre) + sum_list_Z (count <$> chain) + sum_list_Z (count <$> post).
Proof. rewrite !fmap_app, !sum_list_Z_app. lia. Qed.

Lemma word_occurrences_snoc w ws x :
  word_occurrences w (ws ++ [x]) =
  word_occurrences w ws + (if decide (x = Some w) then 1 else 0).
Proof.
  unfold word_occurrences. rewrite filter_app, length_app, filter_cons.
  destruct (decide (x = Some w)); simpl; lia.
Qed.

Lemma word_occurrences_app_le w ws1 ws2 :
  word_occurrences w ws1 ≤ word_occurrences w (ws1 ++ ws2).
Proof. unfold word_occurrences. rewrite filter_app, length_app. lia. Qed.

Lemma insert_word_no_failure t w o ht' o' :
  shaped t → no_failure o →
  insert_word (Some t) (Some w) o = (ht', o') → no_failure o'.
Proof.
  intros Hsh Hok Hins.
  destruct (insert_word_spec _ _ _ _ _ Hsh Hins)
    as (t' & pre & chain & post & chain' & _ & _ & _ & _ & _ & _ & _ & Hcases).
  destruct (node_alloc_no_failure o Hok) as (o2 & Ha & Hok2).
  destruct Hcases as [(c1 & m & c2 & _ & _ & _ & _ & ->)
      | [(_ & Ha' & _) | (_ & Ha' & _)]]; [done | congruence | congruence].
Qed.

(** One call that allocates if it must adds 1 to the sum of the counts, as
    long as the count of the word is below what the remaining calls allow. *)
Lemma insert_word_sum t w o done_ws todo ht' o' :
  wf t → no_failure o →
  (∀ k, word_occurrences k ((done_ws ++ [Some w]) ++ todo) ≤ INT_MAX) →
  (∀ n, n ∈ entries t → 1 ≤ count n ≤ word_occurrences (word n) done_ws) →
  insert_word (Some t) (Some w) o = (ht', o') →
  ∃ t', ht' = Some t' ∧ wf t' ∧ no_failure o' ∧
        sum_counts t' = sum_counts t + 1 ∧
        (∀ n, n ∈ entries t' →
              1 ≤ count n ≤ word_occurrences (word n) (done_ws ++ [Some w])).
Proof.
  intros Hwf Hok Hmax Hinv Hins. pose proof Hwf as (Hsh & _ & _).
  destruct (insert_word_wf _ _ _ _ _ Hwf Hins) as (t' & -> & Hwf' & _).
  pose proof (insert_word_no_failure _ _ _ _ _ Hsh Hok Hins) as Hok'.
  destruct (insert_word_spec _ _ _ _ _ Hsh Hins)
    as (t'' & pre & chain & post & chain' & [= <-] & _ & _ & _ & Hent & Hent' & _ & Hcases).
  exists t'. split_and!; try done.
  - unfold sum_counts. rewrite Hent', Hent, !sum_counts_split.
    destruct Hcases as [(c1 & m & c2 & -> & _ & Hm & -> & _)
      | [(_ & _ & ->) | (_ & Ha' & _)]].
    + assert (Hin : m ∈ entries t).
      { rewrite Hent. rewrite !elem_of_app, elem_of_cons. auto. }
      pose proof (Hinv m Hin) as Hcm. rewrite Hm in Hcm.
      pose proof (Hmax w) as Hw.
      pose proof (word_occurrences_app_le w (done_ws ++ [Some w]) todo) as Hle.
      rewrite word_occurrences_snoc, decide_True in Hle by done.
      rewrite !fmap_app, !fmap_cons, !sum_list_Z_app. unfold sum_list_Z at 3 7.
      simpl. rewrite to_int_small by (unfold INT_MAX in *; lia). lia.
    + rewrite fmap_cons. unfold sum_list_Z at 2. simpl. unfold sum_list_Z. lia.
    + destruct (node_alloc_no_failure o Hok) as (o2 & Ha & _). congruence.
  - intros n Hn. rewrite Hent' in Hn.
    assert (Hold : ∀ n, n ∈ entries t →
                        1 ≤ count n ≤ word_occurrences (word n) (done_ws ++ [Some w])).
    { intros n0 Hn0. pose proof (Hinv n0 Hn0).
      pose proof (word_occurrences_app_le (word n0) done_ws [Some w]). lia. }
    destruct Hcases as [(c1 & m & c2 & -> & _ & Hm & -> & _)
      | [(_ & _ & ->) | (_ & _ & -> & _)]].
    + rewrite !elem_of_app, elem_of_cons in Hn.
      destruct Hn as [Hn|[[Hn|[->|Hn]]|Hn]].
      * apply Hold. rewrite Hent, !elem_of_app. auto.
      * apply Hold. rewrite Hent, !elem_of_app. auto.
      * assert (Hin : m ∈ entries t).
        { rewrite Hent. rewrite !elem_of_app, elem_of_cons. auto. }
        pose proof (Hinv m Hin) as Hcm. rewrite Hm in Hcm.
        pose proof (Hmax w) as Hw.
        pose proof (word_occurrences_app_le w (done_ws ++ [Some w]) todo) as Hle.
        rewrite word_occurrences_snoc, decide_True in Hle by done.
        simpl. rewrite word_occurrences_snoc, decide_True by done.
        rewrite to_int_small by (unfold INT_MAX in *; lia). lia.
      * apply Hold. rewrite Hent, !elem_of_app, elem_of_cons. auto.
      * apply Hold. rewrite Hent, !elem_of_app. auto.
    + rewrite !elem_of_app, elem_of_cons in Hn.
      destruct Hn as [Hn|[[->|Hn]|Hn]].
      * apply Hold. rewrite Hent, !elem_of_app. auto.
      * simpl. rewrite word_occurrences_snoc, decide_True by done.
        unfold word_occurrences. lia.
      * apply Hold. rewrite Hent, !elem_of_app. auto.
      * apply Hold. rewrite Hent, !elem_of_app. auto.
    + apply Hold. by rewrite Hent.
Qed.

Lemma insert_all_sum t done_ws ws o ht' o' :
  wf t → no_failure o →
  Forall is_Some ws →
  (∀ k, word_occurrences k (done_ws ++ ws) ≤ INT_MAX) →
  (∀ n, n ∈ entries t → 1 ≤ count n ≤ word_occurrences (word n) done_ws) →
  insert_all (Some t) ws o = (ht', o') →
  ∃ t', ht' = Some t' ∧ sum_counts t' = sum_counts t + Z.of_nat (length ws).
Proof.
  revert t done_ws o. induction ws as [|w ws IH]; intros t done_ws o Hwf Hok Hws Hmax Hinv.
  - simpl. intros [= <- <-]. exists t. split; [done|]. lia.
  - apply Forall_cons in Hws as [[w0 ->] Hws]. simpl.
    destruct (insert_word (Some t) (Some w0) o) as [ht1 o1] eqn:Hins. intros Hall.
    rewrite cons_middle, app_assoc in Hmax.
    destruct (insert_word_sum _ _ _ _ _ _ _ Hwf Hok Hmax Hinv Hins)
      as (t1 & -> & Hwf1 & Hok1 & Hsum1 & Hinv1).
    destruct (IH _ _ _ Hwf1 Hok1 Hws Hmax Hinv1 Hall) as (t' & -> & Hsum).
    exists t'. split; [done|]. rewrite Hsum, Hsum1. simpl length. lia.
Qed.

(** ** The same word over and over *)

Lemma map_insert_all_same m w c k o :
  m !! w = Some c →
  map_insert_all m (replicate (S k) (Some w)) o =
  (<[w := to_int (c + Z.of_nat (S k))]> m, o).
Proof.
  revert m c. induction k as [|k IH]; intros m c Hm.
  - simpl. by rewrite map_insert_word_unfold, Hm.
  - rewrite replicate_S. cbn [map_insert_all].
    rewrite map_insert_word_unfold, Hm.
    rewrite (IH _ (to_int (c + 1))) by apply lookup_insert_eq.
    rewrite insert_insert_eq, to_int_add_l. do 3 f_equal. lia.
Qed.

(** A fresh store, no allocation failing, [S k] calls with the word [w]:
    one node, whose count is [S k] as an [int]. *)
Lemma repeated_insert sz k w :
  1 ≤ sz ≤ INT_MAX →
  ∃ t,
    insert_all (create_hash_table sz []).1 (replicate (S k) (Some w)) [] = (Some t, []) ∧
    wf t ∧ size t = sz ∧
    entries t = [mkNode w (to_int (Z.of_nat (S k)))].
Proof.
  intros [Hlow Hmax].
  destruct (create_hash_table_no_failure sz [] Hlow) as (ht0 & o0 & Hcreate & _);
    [constructor|].
  destruct (create_hash_table_wf _ _ _ _ Hmax Hcreate) as (Hwf0 & Hsz0 & _ & Hempty).
  rewrite Hcreate. simpl fst.
  destruct (insert_all (Some ht0) (replicate (S k) (Some w)) []) as [ht o'] eqn:Hall.
  destruct (insert_all_wf _ _ _ _ _ Hwf0 Hall) as (t & -> & Hwf & Hsz & Hmap).
  rewrite Hempty, replicate_S in Hmap. cbn [map_insert_all] in Hmap.
  rewrite map_insert_word_unfold, lookup_empty in Hmap. simpl in Hmap.
  assert (Hfinal : store_map t = {[w := to_int (Z.of_nat (S k))]} ∧ o' = []).
  { destruct k as [|k].
    - simpl in Hmap. injection Hmap as -> ->. by rewrite insert_empty.
    - rewrite (map_insert_all_same _ w 1) in Hmap by apply lookup_insert_eq.
      injection Hmap as -> ->. rewrite insert_insert_eq, insert_empty.
      split; [|done]. do 2 f_equal. lia. }
  destruct Hfinal as [Hfinal ->].
  exists t. split_and!; try done; [congruence|]. by apply entries_of_singleton.
Qed.

Lemma word_occurrences_le_length w ws : word_occurrences w ws ≤ Z.of_nat (length ws).
Proof.
  unfold word_occurrences. pose proof (length_filter (λ x, x = Some w) ws). lia.
Qed.

(** Every input splits into a part that does not end inside a token and
    the run of alphabetic bytes that ends it; the run is not empty when the
    last byte is alphabetic. *)
Lemma trailing_run input :
  ∃ pre run,
    input = pre ++ run ∧ ends_token pre ∧ Forall alphabetic run ∧
    (from_option alphabetic False (last input) → run ≠ []).
Proof.
  induction input as [|b input IH] using rev_ind.
  - exists [], []. split_and!; [done | done | constructor | done].
  - rewrite last_snoc. simpl.
    destruct (isalpha (uchar_to_int b)) eqn:Hb.
    + destruct IH as (pre & run & -> & Hpre & Hrun & _).
      exists pre, (run ++ [b]). split_and!.
      * by rewrite app_assoc.
      * done.
      * apply Forall_app. split; [done|]. by repeat constructor.
      * intros _. by destruct run.
    + exists (input ++ [b]), []. split_and!.
      * by rewrite app_nil_r.
      * unfold ends_token. by rewrite last_snoc.
      * constructor.
      * unfold alphabetic. congruence.
Qed.

Lemma fold_case_lower b : alphabetic b → islower (uchar_to_int (fold_case b)) = true.
Proof. unfold alphabetic. destruct b; vm_compute; congruence. Qed.

Lemma fold_case_run_lower run :
  Forall alphabetic run →
  Forall (λ c, islower (uchar_to_int c) = true) (take 99 (fold_case <$> run)).
Proof.
  intros Hrun. apply Forall_take, Forall_fmap.
  eapply Forall_impl; [exact Hrun|]. intros b Hb. by apply fold_case_lower.
Qed.

(** As long as no allocation fails, the mapping does not depend on what the
    oracle holds. *)
Lemma map_insert_all_no_failure m ws o1 o2 :
  no_failure o1 → no_failure o2 →
  (map_insert_all m ws o1).1 = (map_insert_all m ws o2).1.
Proof.
  revert m o1 o2. induction ws as [|[w|] ws IH]; intros m o1 o2 Hok1 Hok2; simpl;
    [done | | by apply IH].
  rewrite !map_insert_word_unfold. destruct (m !! w); [by apply IH|].
  destruct (node_alloc_no_failure o1 Hok1) as (o1' & -> & Hok1').
  destruct (node_alloc_no_failure o2 Hok2) as (o2' & -> & Hok2').
  by apply IH.
Qed.

(** ** One insertion, seen on the mapping *)

(** What one call of [insert_word] does to the word-to-count mapping of a
    store that satisfies the invariant: the invariant still holds, the
    counts of the other words are as they were, a word that has a count gets
    it incremented without any allocation, and a word that has none gets the
    count 1 when the allocations for its node succeed; when one fails the
    store is left as it was. *)
Lemma insert_word_effect ht w o ht' o' :
  wf ht →
  insert_word (Some ht) (Some w) o = (ht', o') →
  ∃ t', ht' = Some t' ∧ wf t' ∧
    (∀ k, k ≠ w → store_map t' !! k = store_map ht !! k) ∧
    match store_map ht !! w with
    | Some c => store_map t' !! w = Some (to_int (c + 1)) ∧ o' = o
    | None => (node_alloc o = (true, o') ∧ store_map t' !! w = Some 1) ∨
              (node_alloc o = (false, o') ∧ t' = ht)
    end.
Proof.
  intros Hwf Hins.
  destruct (insert_word_wf _ _ _ _ _ Hwf Hins) as (t' & -> & Hwf' & _).
  pose proof (insert_word_store_map _ _ _ _ _ Hwf Hins) as Hmap.
  exists t'. split; [done|]. split; [done|]. split.
  - intros k Hk. pose proof (map_insert_word_other (store_map ht) w o k Hk) as Hother.
    by rewrite <- Hmap in Hother.
  - rewrite map_insert_word_unfold in Hmap.
    destruct (store_map ht !! w) as [c|] eqn:Hw.
    + injection Hmap as -> ->. by rewrite lookup_insert_eq.
    + destruct (node_alloc o) as [[] o2] eqn:Ha; injection Hmap as Hm ->.
      * left. split; [done|]. by rewrite Hm, lookup_insert_eq.
      * right. split; [done|].
        pose proof Hwf as (Hsh & _ & _).
        destruct (insert_word_spec _ _ _ _ _ Hsh Hins)
          as (t & pre & chain & post & chain' & [= <-] & _ & _ & _ & Hent & _ & _ & Hcases).
        destruct Hcases as [(c1 & m & c2 & -> & _ & Hm' & _)
          | [(_ & Ha' & _) | (_ & _ & _ & ->)]]; [| congruence | done].
        exfalso. apply store_map_lookup_None in Hw. apply Hw.
        apply list_elem_of_fmap. exists m. split; [done|].
        rewrite Hent, !elem_of_app, elem_of_cons. auto.
Qed.

(** With an allocator that does not fail, the word is in the store after the
    call, with one more than the count it had, or with the count 1. *)
Lemma insert_word_effect_no_failure ht w o t' o' :
  wf ht → no_failure o →
  insert_word (Some ht) (Some w) o = (Some t', o') →
  store_map t' !! w = Some (to_int (default 0 (store_map ht !! w) + 1)).
Proof.
  intros Hwf Hok Hins.
  destruct (insert_word_effect _ _ _ _ _ Hwf Hins) as (t & [= <-] & _ & _ & Hw).
  destruct (store_map ht !! w) as [c|]; simpl; [by destruct Hw|].
  destruct (node_alloc_no_failure o Hok) as (o2 & Ha & _).
  destruct Hw as [[_ ->]|[Ha' _]]; [done | congruence].
Qed.

Lemma insert_all_heap_no_failure t ws o ht' o' :
  wf t → no_failure o → insert_all (Some t) ws o = (ht', o') → no_failure o'.
Proof.
  revert t o. induction ws as [|w ws IH]; intros t o Hwf Hok; simpl.
  - by intros [= <- <-].
  - destruct (insert_word (Some t) w o) as [ht1 o1] eqn:Hins.
    destruct (insert_word_wf _ _ _ _ _ Hwf Hins) as (t1 & -> & Hwf1 & _).
    apply (IH t1 o1 Hwf1). destruct w as [w|].
    + eapply insert_word_no_failure; [apply Hwf | exact Hok | exact Hins].
    + unfold insert_word in Hins. by injection Hins as <- <-.
Qed.

(** The store that the loop holds after any part of the input. *)
Lemma analyze_loop_store input s o ht :
  word_counts s = Some ht → wf ht →
  ∃ t, word_counts (stats (analyze_loop input (enter s o))) = Some t ∧ wf t ∧
       size t = size ht ∧
       (no_failure o → no_failure (heap (analyze_loop input (enter s o)))).
Proof.
  intros Hs Hwf.
  destruct (analyze_loop_tokenizer input (enter s o)) as [_ Hall].
  simpl in Hall. rewrite Hs in Hall. symmetry in Hall.
  destruct (insert_all_wf _ _ _ _ _ Hwf Hall) as (t & Ht & Hwf' & Hsz & _).
  exists t. split_and!; try done.
  intros Hok. exact (insert_all_heap_no_failure _ _ _ _ _ Hwf Hok Hall).
Qed.

(** * The claims *)

(** C5: when the file cannot be opened, [analyze_file] returns the failure
    indicator -1 and changes nothing: the statistics (the three counters, the
    frequency table and the word store) and the allocator are those the
    caller supplied. *)
Theorem analyze_file_open_failure fs s o :
  fs (filename s) = None → analyze_file fs s o = (-1, s, o).
Proof.
  intros Hopen. unfold analyze_file. by rewrite Hopen.
Qed.

(** C1: on the thirteen bytes of "Cat cat CAT." followed by a newline, with
    a store that [create_hash_table] has just returned (whatever its number
    of buckets), zeroed counters and a zeroed table, and no allocation
    failing, [analyze_file] succeeds with [char_count] 13, [word_count] 3,
    [line_count] 1, and the store holds the single node of "cat" with count
    3: its word-to-count mapping is exactly that of "cat" to 3. *)
Theorem analyze_file_cat fs name n o ht o1 :
  fs name = Some (text "Cat cat CAT." ++ [x0a]) →
  n ≤ INT_MAX →
  no_failure o →
  create_hash_table n o = (Some ht, o1) →
  ∃ s' o' t,
    analyze_file fs (fresh_stats name (Some ht)) o1 = (0, s', o') ∧
    char_count s' = 13 ∧ word_count s' = 3 ∧ line_count s' = 1 ∧
    word_counts s' = Some t ∧
    store_map t = {[text "cat" := 3]} ∧
    entries t = [mkNode (text "cat") 3].
Proof.
  intros Hopen Hmax Hok Hcreate.
  destruct (create_hash_table_no_failure n o) as (ht0 & o10 & Hc0 & Hok1);
    [by apply create_hash_table_Some in Hcreate as [? _] | done |].
  rewrite Hcreate in Hc0. injection Hc0 as <- <-.
  destruct (create_hash_table_wf _ _ _ _ Hmax Hcreate) as (Hwf & _ & _ & Hempty).
  destruct (analyze_file_Some fs (fresh_stats name (Some ht)) o1 _ Hopen)
    as (s' & o' & inw & Hrun & _ & Hcount & Hstore).
  assert (Htok : tokens (text "Cat cat CAT." ++ [x0a]) = [text "cat"; text "cat"; text "cat"])
    by (vm_compute; reflexivity).
  rewrite Htok in Hstore.
  vm_compute fold_left in Hcount. injection Hcount as Hcc Hwc Hlc _ _.
  symmetry in Hstore.
  destruct (insert_all_wf _ _ _ _ _ Hwf Hstore) as (t & Ht & Hwft & _ & Hmap).
  rewrite Hempty in Hmap. simpl in Hmap.
  rewrite (map_insert_word_unfold ∅), lookup_empty in Hmap.
  destruct (node_alloc_no_failure o1 Hok1) as (o2 & Ha & _). rewrite Ha in Hmap.
  rewrite !map_insert_word_unfold, !lookup_insert_eq, !insert_insert_eq in Hmap.
  rewrite insert_empty in Hmap. injection Hmap as Hmap _.
  change (to_int (to_int (1 + 1) + 1)) with 3 in Hmap.
  exists s', o', t. split_and!; try done.
  by apply entries_of_singleton.
Qed.

(** C2, amended: from the statistics that [main] sets up, when no byte value
    occurs more than [INT_MAX] times in the input, the entries of the
    frequency table add up to [char_count] after a successful call. (The
    table holds [int]s and [char_count] is a [long long]: a byte value that
    occurs more often overflows its entry.) *)
Theorem frequency_sum fs name ht o input :
  fs name = Some input →
  (∀ c, occurrences c input ≤ INT_MAX) →
  ∃ s' o',
    analyze_file fs (fresh_stats name ht) o = (0, s', o') ∧
    sum_list_Z (char_freq s') = char_count s'.
Proof.
  intros Hopen Hbound.
  destruct (analyze_file_fresh_counters fs name ht o input Hopen)
    as (s' & o' & Hrun & Hcc & Hfreq).
  exists s', o'. split; [done|]. rewrite Hcc, Hfreq. unfold histogram.
  rewrite (list_fmap_ext _ (λ i : nat, occurrences (Z.of_nat i) input)).
  - rewrite sum_occurrences. symmetry. apply to_llong_small.
    pose proof (sum_list_Z_bound (λ i : nat, occurrences (Z.of_nat i) input)
                  (seq 0 256) INT_MAX (λ i, Hbound _)) as Hsum.
    rewrite sum_occurrences, length_seq in Hsum. unfold INT_MAX in Hsum. lia.
  - intros i x _. apply to_int_small.
    pose proof (occurrences_nonneg (Z.of_nat x) input). specialize (Hbound (Z.of_nat x)). lia.
Qed.

(** C3: in a store that [create_hash_table] returned and that went through
    any sequence of calls of [insert_word] (whatever the allocator did), no
    word has two nodes; and when a word [w] is not among those inserted so
    far and no allocation fails from then on, two calls with [w] leave
    exactly one node for [w], with count 2. *)
Theorem insert_twice_one_entry sz o0 ht0 o ws ht o1 :
  sz ≤ INT_MAX →
  create_hash_table sz o0 = (Some ht0, o) →
  insert_all (Some ht0) ws o = (ht, o1) →
  ∃ t, ht = Some t ∧
       NoDup (word <$> entries t) ∧
       ∀ w, Some w ∉ ws → no_failure o1 →
            ∃ t2 o2, insert_all (Some t) [Some w; Some w] o1 = (Some t2, o2) ∧
                     NoDup (word <$> entries t2) ∧
                     filter (λ n, word n = w) (entries t2) = [mkNode w 2].
Proof.
  intros Hmax Hcreate Hall.
  destruct (create_hash_table_wf _ _ _ _ Hmax Hcreate) as (Hwf0 & _ & _ & Hempty).
  destruct (insert_all_wf _ _ _ _ _ Hwf0 Hall) as (t & -> & Hwf & _ & Hmap).
  exists t. split; [done|]. split; [apply Hwf|].
  intros w Hw Hok.
  destruct (insert_all (Some t) [Some w; Some w] o1) as [ht2 o2] eqn:Htwice.
  destruct (insert_all_wf _ _ _ _ _ Hwf Htwice) as (t2 & -> & Hwf2 & _ & Hmap2).
  exists t2, o2. split; [done|]. split; [apply Hwf2|].
  assert (Habsent : store_map t !! w = None).
  { pose proof (map_insert_all_other (store_map ht0) ws o w Hw) as Hframe.
    rewrite <- Hmap, Hempty in Hframe. simpl in Hframe. by rewrite Hframe, lookup_empty. }
  simpl in Hmap2. rewrite (map_insert_word_unfold (store_map t)), Habsent in Hmap2.
  destruct (node_alloc_no_failure o1 Hok) as (o1' & Ha & _). rewrite Ha in Hmap2.
  rewrite map_insert_word_unfold, lookup_insert_eq, insert_insert_eq in Hmap2.
  injection Hmap2 as Hmap2 _. change (to_int (1 + 1)) with 2 in Hmap2.
  assert (Hin : mkNode w 2 ∈ entries t2).
  { apply store_map_lookup_Some; [apply Hwf2|]. by rewrite Hmap2, lookup_insert_eq. }
  apply (filter_word_unique _ _ (proj2 (proj2 Hwf2)) Hin).
Qed.

(** C4, amended: in a store that [create_hash_table] returned with [sz]
    buckets and that went through any sequence of calls of [insert_word],
    every node lies in the bucket whose index is [hash] of its word modulo
    [sz], where [hash] is the djb2 accumulator (5381, then the accumulator
    times 33 plus the character, wrapping around at 64 bits) reduced modulo
    2^32, the [unsigned int] that [hash] returns. The character is the byte
    itself when plain [char] is unsigned or the word is ASCII, so that the
    accumulator is then the one of the specification. When no allocation
    fails, every word inserted has its node there. *)
Theorem bucket_of_word sz o0 ht0 o ws ht o1 :
  sz ≤ INT_MAX →
  create_hash_table sz o0 = (Some ht0, o) →
  insert_all (Some ht0) ws o = (ht, o1) →
  ∃ t, ht = Some t ∧
    (∀ i chain n, table t !! i = Some chain → n ∈ chain →
       Z.of_nat i = hash (word n) mod sz) ∧
    (∀ w, hash w = djb2 w mod 4294967296 ∧
          (char_signed = false ∨ ascii_word w →
           hash w = spec_djb2 w mod 4294967296)) ∧
    (no_failure o → ∀ w, Some w ∈ ws →
       ∃ chain n, table t !! Z.to_nat (hash w mod sz) = Some chain ∧
                  n ∈ chain ∧ word n = w).
Proof.
  intros Hmax Hcreate Hall.
  destruct (create_hash_table_wf _ _ _ _ Hmax Hcreate) as (Hwf0 & Hsz0 & _ & Hempty).
  destruct (insert_all_wf _ _ _ _ _ Hwf0 Hall) as (t & -> & Hwf & Hsz & Hmap).
  exists t. split; [done|]. pose proof Hwf as (Hsh & Hplace & Hnd).
  rewrite Hsz0 in Hsz.
  assert (Hindex : ∀ w, bucket_index t w = hash w mod sz).
  { intros w. rewrite bucket_index_arith, Hsz by done.
    unfold hash, to_uint. by rewrite hash_acc_djb2. }
  split_and!.
  - intros i chain n Hi Hn.
    pose proof (Hplace i chain n Hi Hn) as Hidx.
    pose proof (bucket_index_range t (word n) Hsh) as Hrange.
    rewrite Hindex in Hidx, Hrange. lia.
  - intros w. unfold hash, to_uint. rewrite hash_acc_djb2. split; [done|].
    intros Hw. by rewrite (djb2_spec _ Hw).
  - intros Hok w Hw.
    pose proof (map_insert_all_present (store_map ht0) ws o w Hok Hw) as [c Hc].
    rewrite <- Hmap in Hc. simpl in Hc.
    apply store_map_lookup_Some in Hc; [|done].
    apply list_elem_of_In, in_concat in Hc as (chain & Hchain & Hn).
    apply list_elem_of_In, list_elem_of_lookup in Hchain as [i Hi].
    apply list_elem_of_In in Hn.
    pose proof (Hplace i chain _ Hi Hn) as Hidx. simpl in Hidx.
    rewrite Hindex in Hidx.
    exists chain, (mkNode w c). by rewrite Hidx.
Qed.

(** C6: when the last byte of the file is alphabetic, the input is a part
    [pre] that does not end inside a token followed by a run [run] of one or
    more alphabetic bytes. The loop ends with the run, folded to lower-case
    letters (its first 99 bytes), in the buffer, without having touched the
    store or the allocator since the run began; [analyze_file] then returns
    0 after one call of [insert_word] with that token on the store [tb] as
    it was when the run began. In the store [t'] that [analyze_file] returns
    no word occurs twice, the counts of the other words are those of [tb],
    and the token has one more than its count in [tb], or the count 1 if it
    had none and its node could be allocated (if it could not, the store is
    [tb]). With an allocator that does not fail the token is therefore in
    the store that is returned, with exactly one more than it had. *)
Theorem pending_token_inserted fs s o input ht :
  fs (filename s) = Some input →
  from_option alphabetic False (last input) →
  word_counts s = Some ht → wf ht →
  ∃ pre run,
    input = pre ++ run ∧ ends_token pre ∧ run ≠ [] ∧ Forall alphabetic run ∧
    let before := analyze_loop pre (enter s o) in
    let l := analyze_loop input (enter s o) in
    let token := take 99 (fold_case <$> run) in
    Forall (λ c, islower (uchar_to_int c) = true) token ∧
    word_buffer l = token ∧
    word_counts (stats l) = word_counts (stats before) ∧
    heap l = heap before ∧
    ∃ s' o' tb t',
      analyze_file fs s o = (0, s', o') ∧
      word_counts (stats before) = Some tb ∧
      word_counts s' = Some t' ∧
      insert_word (Some tb) (Some token) (heap before) = (Some t', o') ∧
      wf t' ∧
      (∀ k, k ≠ token → store_map t' !! k = store_map tb !! k) ∧
      match store_map tb !! token with
      | Some c => store_map t' !! token = Some (to_int (c + 1)) ∧ o' = heap before
      | None => (node_alloc (heap before) = (true, o') ∧ store_map t' !! token = Some 1) ∨
                (node_alloc (heap before) = (false, o') ∧ t' = tb)
      end ∧
      (no_failure o →
       store_map t' !! token = Some (to_int (default 0 (store_map tb !! token) + 1))).
Proof.
  intros Hopen Hlast Hs Hwf.
  destruct (trailing_run input) as (pre & run & -> & Hpre & Hrun & Hne).
  specialize (Hne Hlast). exists pre, run. split_and!; try done.
  cbv zeta. split; [by apply fold_case_run_lower|].
  destruct (analyze_file_run_end fs s o pre run Hopen Hpre Hne Hrun)
    as (Hbuf & Hwc & Hheap & s' & o' & Hret & Hins).
  destruct (analyze_loop_store pre s o ht Hs Hwf) as (tb & Htb & Hwfb & _ & Hokb).
  split_and!; try done.
  rewrite Htb in Hins. symmetry in Hins.
  destruct (insert_word_effect _ _ _ _ _ Hwfb Hins) as (t' & Ht' & Hwf' & Hother & Hw).
  rewrite Ht' in Hins.
  exists s', o', tb, t'. split_and!; try done.
  intros Hok. eapply insert_word_effect_no_failure; [exact Hwfb | by apply Hokb | exact Hins].
Qed.

(** C7: a run of more than 99 alphabetic bytes that starts a token yields
    one token, the first 99 bytes of the run folded to lower-case letters.
    The one call of [insert_word] with that token, on the store [tb] as it
    was when the run began, gives a store [t'] in which no word occurs
    twice, the counts of the other words are those of [tb], and the token
    has one more than its count in [tb], or the count 1 if it had none and
    its node could be allocated (if it could not, the store is [tb]); with
    an allocator that does not fail the token is therefore in [t']. When a
    byte that is not alphabetic follows the run, [t'] is the store of the
    loop after that byte and the buffer is empty, so that the bytes beyond
    the 99th are dropped and the rest of the input is read from an empty
    buffer; when the run ends the file, [t'] is the store that
    [analyze_file] returns. *)
Theorem long_run_truncated s o pre run ht :
  ends_token pre → Forall alphabetic run → (99 < length run)%nat →
  word_counts s = Some ht → wf ht →
  let before := analyze_loop pre (enter s o) in
  let token := fold_case <$> take 99 run in
  length token = 99%nat ∧
  Forall (λ c, islower (uchar_to_int c) = true) token ∧
  ∃ tb t' o',
    word_counts (stats before) = Some tb ∧
    insert_word (Some tb) (Some token) (heap before) = (Some t', o') ∧
    wf t' ∧
    (∀ k, k ≠ token → store_map t' !! k = store_map tb !! k) ∧
    match store_map tb !! token with
    | Some c => store_map t' !! token = Some (to_int (c + 1)) ∧ o' = heap before
    | None => (node_alloc (heap before) = (true, o') ∧ store_map t' !! token = Some 1) ∨
              (node_alloc (heap before) = (false, o') ∧ t' = tb)
    end ∧
    (no_failure o →
     store_map t' !! token = Some (to_int (default 0 (store_map tb !! token) + 1))) ∧
    (∀ d post, isalpha (uchar_to_int d) = false →
       let l := analyze_loop (pre ++ run ++ [d]) (enter s o) in
       analyze_loop (pre ++ run ++ d :: post) (enter s o) = analyze_loop post l ∧
       word_buffer l = [] ∧
       word_counts (stats l) = Some t' ∧ heap l = o') ∧
    (∀ fs, fs (filename s) = Some (pre ++ run) →
       ∃ s', analyze_file fs s o = (0, s', o') ∧ word_counts s' = Some t').
Proof.
  intros Hend Hrun Hlen Hs Hwf before token.
  assert (Hne : run ≠ []) by (intros ->; simpl in Hlen; lia).
  assert (Htok : token = take 99 (fold_case <$> run)) by (unfold token; by rewrite fmap_take).
  split; [unfold token; rewrite length_fmap, length_take; lia|].
  split; [rewrite Htok; by apply fold_case_run_lower|].
  destruct (analyze_loop_store pre s o ht Hs Hwf) as (tb & Htb & Hwfb & _ & Hokb).
  fold before in Htb, Hokb.
  destruct (insert_word (Some tb) (Some token) (heap before)) as [ht' o'] eqn:Hins.
  destruct (insert_word_effect _ _ _ _ _ Hwfb Hins) as (t' & -> & Hwf' & Hother & Hw).
  exists tb, t', o'. split_and!; try done.
  - intros Hok. eapply insert_word_effect_no_failure; [exact Hwfb | by apply Hokb | exact Hins].
  - intros d post Hd l.
    destruct (analyze_loop_run_delimiter s o pre run d Hend Hne Hrun Hd) as [Hbuf Hstore].
    fold before l in Hbuf, Hstore. rewrite <- Htok, Htb, Hins in Hstore.
    injection Hstore as Hst Hheap. split_and!; try done.
    unfold l. by rewrite <- analyze_loop_app, <- !app_assoc.
  - intros fs Hopen.
    destruct (analyze_file_run_end fs s o pre run Hopen Hend Hne Hrun)
      as (_ & _ & _ & s' & o2 & Hret & Hstore).
    fold before in Hstore. rewrite <- Htok, Htb, Hins in Hstore.
    injection Hstore as Hst ->. by exists s'.
Qed.

(** C8: two runs of [analyze_file] on files with the same bytes, each from
    zeroed statistics and a store that [create_hash_table] has just returned
    (the two stores may differ in their number of buckets), both succeed,
    with the same [char_count], [word_count] and [line_count], the same
    frequency table, and stores that have the same word-to-count mapping,
    when the allocation requests of the two runs have the same outcomes or
    when none fails in either run. *)
Theorem analyze_file_deterministic
    fs1 fs2 name1 name2 input n1 n2 oa ob ht1 ht2 oa' ob' o1 o2 :
  fs1 name1 = Some input →
  fs2 name2 = Some input →
  n1 ≤ INT_MAX → n2 ≤ INT_MAX →
  create_hash_table n1 oa = (Some ht1, oa') →
  create_hash_table n2 ob = (Some ht2, ob') →
  o1 = o2 ∨ (no_failure o1 ∧ no_failure o2) →
  ∃ s1 s2 o1' o2' t1 t2,
    analyze_file fs1 (fresh_stats name1 (Some ht1)) o1 = (0, s1, o1') ∧
    analyze_file fs2 (fresh_stats name2 (Some ht2)) o2 = (0, s2, o2') ∧
    char_count s1 = char_count s2 ∧
    word_count s1 = word_count s2 ∧
    line_count s1 = line_count s2 ∧
    char_freq s1 = char_freq s2 ∧
    word_counts s1 = Some t1 ∧ word_counts s2 = Some t2 ∧
    store_map t1 = store_map t2.
Proof.
  intros Hopen1 Hopen2 Hmax1 Hmax2 Hc1 Hc2 Hor.
  destruct (create_hash_table_wf _ _ _ _ Hmax1 Hc1) as (Hwf1 & _ & _ & Hempty1).
  destruct (create_hash_table_wf _ _ _ _ Hmax2 Hc2) as (Hwf2 & _ & _ & Hempty2).
  destruct (analyze_file_Some fs1 (fresh_stats name1 (Some ht1)) o1 input Hopen1)
    as (s1 & o1' & inw1 & Hrun1 & _ & Hcount1 & Hstore1).
  destruct (analyze_file_Some fs2 (fresh_stats name2 (Some ht2)) o2 input Hopen2)
    as (s2 & o2' & inw2 & Hrun2 & _ & Hcount2 & Hstore2).
  symmetry in Hstore1, Hstore2. simpl in Hstore1, Hstore2.
  destruct (insert_all_wf _ _ _ _ _ Hwf1 Hstore1) as (t1 & Ht1 & _ & _ & Hmap1).
  destruct (insert_all_wf _ _ _ _ _ Hwf2 Hstore2) as (t2 & Ht2 & _ & _ & Hmap2).
  rewrite Hempty1 in Hmap1. rewrite Hempty2 in Hmap2.
  assert (Hmap : store_map t1 = store_map t2).
  { apply (f_equal fst) in Hmap1, Hmap2. simpl in Hmap1, Hmap2.
    rewrite Hmap1, Hmap2. destruct Hor as [->|[Hok1 Hok2]]; [done|].
    by apply map_insert_all_no_failure. }
  simpl in Hcount1, Hcount2. rewrite <- Hcount1 in Hcount2.
  injection Hcount2 as Hcc Hwc Hlc Hfreq _.
  exists s1, s2, o1', o2', t1, t2. split_and!; done.
Qed.

(** C9, amended: a call of [insert_word] on a store with its shape changes,
    bucket by bucket, nothing of the chains once the nodes of the inserted
    word are left out; every node of the store is still there after the
    call, with its word, with its count if its word is not the inserted one,
    and with a count that is not smaller if its count was below [INT_MAX].
    (A count of [INT_MAX] wraps around.) *)
Theorem insert_word_frame ht w o ht' o' :
  shaped ht →
  insert_word (Some ht) (Some w) o = (ht', o') →
  ∃ t', ht' = Some t' ∧
    (∀ i, filter (λ n, word n ≠ w) <$> (table t' !! i) =
          filter (λ n, word n ≠ w) <$> (table ht !! i)) ∧
    (∀ n, n ∈ entries ht →
          ∃ n', n' ∈ entries t' ∧ word n' = word n ∧
                (word n ≠ w → count n' = count n) ∧
                (count n < INT_MAX → count n ≤ count n')).
Proof.
  intros Hsh Hins.
  destruct (insert_word_spec _ _ _ _ _ Hsh Hins)
    as (t' & pre & chain & post & chain' & -> & _ & Htbl & Hchain & Hent & Hent'
        & _ & Hcases).
  exists t'. split; [done|]. split.
  - intros i. rewrite Htbl.
    destruct (decide (i = Z.to_nat (bucket_index ht w))) as [->|Hne];
      [|by rewrite list_lookup_insert_ne].
    rewrite list_lookup_insert_eq by (by eapply lookup_lt_Some). rewrite Hchain. simpl.
    f_equal.
    destruct Hcases as [(c1 & m & c2 & -> & _ & Hm & -> & _)
      | [(_ & _ & ->) | (_ & _ & -> & _)]]; [| |done].
    + rewrite !filter_app, !filter_cons. simpl.
      rewrite !decide_False; [done | by intros [] | by intros []].
    + rewrite filter_cons. simpl. rewrite decide_False; [done | by intros []].
  - intros n Hn. rewrite Hent in Hn. rewrite Hent'.
    assert (Hsame : n ∈ pre ++ chain' ++ post →
                    ∃ n', n' ∈ pre ++ chain' ++ post ∧ word n' = word n ∧
                          (word n ≠ w → count n' = count n) ∧
                          (count n < INT_MAX → count n ≤ count n')).
    { intros Hin. exists n. split_and!; [done | done | done | lia]. }
    destruct Hcases as [(c1 & m & c2 & -> & _ & Hm & -> & _)
      | [(_ & _ & ->) | (_ & _ & -> & _)]].
    + rewrite !elem_of_app, elem_of_cons in Hn.
      destruct Hn as [Hn|[[Hn|[->|Hn]]|Hn]].
      * apply Hsame. rewrite !elem_of_app. auto.
      * apply Hsame. rewrite !elem_of_app. auto.
      * exists (mkNode w (to_int (count m + 1))). split_and!.
        -- rewrite !elem_of_app, elem_of_cons. auto.
        -- done.
        -- intros Hw. by destruct Hw.
        -- simpl. apply to_int_succ_ge.
      * apply Hsame. rewrite !elem_of_app, elem_of_cons. auto.
      * apply Hsame. rewrite !elem_of_app. auto.
    + apply Hsame. rewrite !elem_of_app, elem_of_cons in *. tauto.
    + by apply Hsame.
Qed.

(** C10, amended: no allocation failing, after any sequence of calls of
    [insert_word] with words that are not null on a store that
    [create_hash_table] has just returned, the counts of the nodes add up to
    the number of calls, provided no word is inserted more than [INT_MAX]
    times. (The count of a word inserted more often wraps around.) *)
Theorem count_sum sz o0 ht0 o ws ht o1 :
  sz ≤ INT_MAX →
  no_failure o0 →
  create_hash_table sz o0 = (Some ht0, o) →
  Forall is_Some ws →
  (∀ w, word_occurrences w ws ≤ INT_MAX) →
  insert_all (Some ht0) ws o = (ht, o1) →
  ∃ t, ht = Some t ∧ sum_counts t = Z.of_nat (length ws).
Proof.
  intros Hmax Hok0 Hcreate Hws Hocc Hall.
  destruct (create_hash_table_no_failure sz o0) as (ht0' & o' & Hc & Hok);
    [by apply create_hash_table_Some in Hcreate as [? _] | done |].
  rewrite Hcreate in Hc. injection Hc as <- <-.
  destruct (create_hash_table_wf _ _ _ _ Hmax Hcreate) as (Hwf0 & _ & Hent0 & _).
  destruct (insert_all_sum ht0 [] ws o ht o1 Hwf0 Hok Hws Hocc) as (t & -> & Hsum);
    [|done|].
  - intros n Hn. rewrite Hent0 in Hn. by apply elem_of_nil in Hn.
  - exists t. split; [done|]. rewrite Hsum. unfold sum_counts. by rewrite Hent0.
Qed.

(** * Further properties of the analysis *)

(** ** The counters from any starting point *)

Lemma to_int_idemp z : to_int (to_int z) = to_int z.
Proof. rewrite <- (Z.add_0_r (to_int z)) at 1. by rewrite to_int_add_l, Z.add_0_r. Qed.

Lemma to_llong_idemp z : to_llong (to_llong z) = to_llong z.
Proof. rewrite <- (Z.add_0_r (to_llong z)) at 1. by rewrite to_llong_add_l, Z.add_0_r. Qed.

Lemma to_int_is_int z : is_int (to_int z).
Proof.
  unfold is_int, to_int, INT_MAX.
  pose proof (Z.mod_pos_bound (z + 2147483648) 4294967296). lia.
Qed.

Lemma word_starts_after_cons prev b input :
  word_starts_after prev (b :: input) =
  (if isspace (uchar_to_int prev) && negb (isspace (uchar_to_int b)) then 1 else 0)
  + word_starts_after b input.
Proof.
  unfold word_starts_after. simpl zip. rewrite filter_cons. simpl.
  destruct (isspace (uchar_to_int prev)), (isspace (uchar_to_int b)); simpl; lia.
Qed.

Lemma last_cons_default {A} (b d : A) l : List.last (b :: l) d = List.last l b.
Proof.
  revert b d. induction l as [|x l IH]; intros b d; [done|].
  change (List.last (b :: x :: l) d) with (List.last (x :: l) d).
  by rewrite !IH.
Qed.

(** The counters after the loop, from counters that hold values of their
    types; the flag [in_word] is 0 after white space and 1 after any other
    byte. *)
Lemma count_byte_closed input cc wc lc freq prev :
  is_llong cc → is_int wc → is_int lc → Forall is_int freq →
  fold_left count_byte input
    (cc, wc, lc, freq, if isspace (uchar_to_int prev) then 0 else 1) =
  (to_llong (cc + Z.of_nat (length input)),
   to_int (wc + word_starts_after prev input),
   to_int (lc + occurrences 10 input),
   imap (λ i x, to_int (x + occurrences (Z.of_nat i) input)) freq,
   if isspace (uchar_to_int (List.last input prev)) then 0 else 1).
Proof.
  revert cc wc lc freq prev.
  induction input as [|b input IH]; intros cc wc lc freq prev Hcc Hwc Hlc Hfreq.
  - simpl fold_left. simpl length. unfold word_starts_after. simpl.
    rewrite !Z.add_0_r, to_llong_small, !to_int_small by done.
    do 2 f_equal. apply list_eq. intros i. rewrite list_lookup_imap.
    destruct (freq !! i) as [x|] eqn:Hx; [|done]. simpl.
    change (occurrences (Z.of_nat i) []) with 0. rewrite Z.add_0_r.
    rewrite to_int_small; [done|]. by eapply (Forall_lookup_1 _ _ _ _ Hfreq).
  - simpl fold_left. unfold count_byte at 1.
    pose proof (uchar_to_int_range b) as Hb.
    assert (Hflag : (if isspace (uchar_to_int b) then 0
                     else if (if isspace (uchar_to_int prev) then 0 else 1) =? 0
                          then 1 else if isspace (uchar_to_int prev) then 0 else 1)
                    = if isspace (uchar_to_int b) then 0 else 1).
    { by destruct (isspace (uchar_to_int b)), (isspace (uchar_to_int prev)). }
    rewrite Hflag. rewrite IH.
    + f_equal; [f_equal; [f_equal; [f_equal|]|]|].
      * rewrite to_llong_add_l. f_equal. simpl length. lia.
      * rewrite word_starts_after_cons.
        destruct (isspace (uchar_to_int b)), (isspace (uchar_to_int prev)); simpl;
          rewrite ?to_int_add_l; f_equal; lia.
      * rewrite occurrences_cons.
        destruct (uchar_to_int b =? 10) eqn:E.
        -- apply Z.eqb_eq in E. rewrite decide_True by done.
           rewrite to_int_add_l. f_equal. lia.
        -- apply Z.eqb_neq in E. rewrite decide_False by done. done.
      * apply list_eq. intros i. rewrite !list_lookup_imap.
        destruct (decide (i = Z.to_nat (uchar_to_int b))) as [->|Hne].
        -- destruct (freq !! Z.to_nat (uchar_to_int b)) as [x|] eqn:Hx.
           ++ rewrite list_lookup_insert_eq by (by eapply lookup_lt_Some). simpl.
              rewrite occurrences_cons, decide_True by lia.
              rewrite to_int_add_l. do 2 f_equal. lia.
           ++ rewrite list_insert_ge by (by apply lookup_ge_None). by rewrite Hx.
        -- rewrite list_lookup_insert_ne by done.
           destruct (freq !! i) as [x|]; [|done]. simpl.
           rewrite occurrences_cons, decide_False by lia. done.
      * by rewrite last_cons_default.
    + rewrite <- (to_llong_idemp (cc + 1)). unfold is_llong, to_llong.
      pose proof (Z.mod_pos_bound (to_llong (cc + 1) + 9223372036854775808)
                    18446744073709551616). unfold to_llong in *. lia.
    + destruct (isspace (uchar_to_int b)); [done|].
      destruct (_ =? 0); [apply to_int_is_int | done].
    + destruct (_ =? 10); [apply to_int_is_int | done].
    + apply Forall_insert; [done|]. apply to_int_is_int.
Qed.

Lemma fresh_stats_ok name ht : stats_ok (fresh_stats name ht).
Proof.
  unfold stats_ok, fresh_stats. cbn [char_count word_count line_count char_freq].
  unfold is_llong, is_int, INT_MAX. split_and!; try lia.
  apply Forall_replicate. lia.
Qed.

(** The four counters that [analyze_file] leaves, from statistics that hold
    values of their types. *)
Lemma analyze_file_counters fs s o input :
  fs (filename s) = Some input →
  stats_ok s →
  ∃ s' o',
    analyze_file fs s o = (0, s', o') ∧
    char_count s' = to_llong (char_count s + Z.of_nat (length input)) ∧
    word_count s' = to_int (word_count s + word_starts input) ∧
    line_count s' = to_int (line_count s + occurrences 10 input) ∧
    char_freq s' = imap (λ i x, to_int (x + occurrences (Z.of_nat i) input)) (char_freq s).
Proof.
  intros Hopen (Hcc & Hwc & Hlc & Hfreq).
  destruct (analyze_file_Some fs s o input Hopen)
    as (s' & o' & inw & Hrun & _ & Hcount & _).
  pose proof (count_byte_closed input _ _ _ _ " "%byte Hcc Hwc Hlc Hfreq) as Hclosed.
  change (if isspace (uchar_to_int " "%byte) then 0 else 1) with 0 in Hclosed.
  rewrite Hclosed in Hcount. injection Hcount as Hcc' Hwc' Hlc' Hfreq' _.
  exists s', o'. done.
Qed.

(** X1: [analyze_file] adds to [line_count] the number of newline bytes of
    the file, as an [int]; from a [line_count] of 0 and with at most
    [INT_MAX] newline bytes, [line_count] is their number. *)
Theorem line_count_newlines fs s o input :
  fs (filename s) = Some input →
  stats_ok s →
  ∃ s' o',
    analyze_file fs s o = (0, s', o') ∧
    line_count s' = to_int (line_count s + occurrences 10 input) ∧
    (line_count s = 0 → occurrences 10 input ≤ INT_MAX →
     line_count s' = occurrences 10 input).
Proof.
  intros Hopen Hok.
  destruct (analyze_file_counters fs s o input Hopen Hok) as (s' & o' & Hrun & _ & _ & Hlc & _).
  exists s', o'. split_and!; [done | done |].
  intros H0 Hmax. rewrite Hlc, H0. apply to_int_small.
  pose proof (occurrences_nonneg 10 input). lia.
Qed.

(** X2: [analyze_file] adds to [word_count] the number of bytes that are not
    white space and that come first in the file or after a byte that is
    white space, as an [int]; from a [word_count] of 0 and with at most
    [INT_MAX] such bytes, [word_count] is their number. *)
Theorem word_count_word_starts fs s o input :
  fs (filename s) = Some input →
  stats_ok s →
  ∃ s' o',
    analyze_file fs s o = (0, s', o') ∧
    word_count s' = to_int (word_count s + word_starts input) ∧
    (word_count s = 0 → word_starts input ≤ INT_MAX →
     word_count s' = word_starts input).
Proof.
  intros Hopen Hok.
  destruct (analyze_file_counters fs s o input Hopen Hok) as (s' & o' & Hrun & _ & Hwc & _ & _).
  exists s', o'. split_and!; [done | done |].
  intros H0 Hmax. rewrite Hwc, H0. apply to_int_small.
  unfold word_starts, word_starts_after in *. lia.
Qed.

(** X3: [analyze_file] does not reset the statistics it is given: it adds
    the length of the file to [char_count], as a [long long], and to every
    slot of the frequency table the number of bytes of that value, as an
    [int]. The table keeps its length, and the slot of a byte value that
    does not occur in the file keeps its content. *)
Theorem counters_accumulate fs s o input :
  fs (filename s) = Some input →
  stats_ok s →
  ∃ s' o',
    analyze_file fs s o = (0, s', o') ∧
    char_count s' = to_llong (char_count s + Z.of_nat (length input)) ∧
    length (char_freq s') = length (char_freq s) ∧
    (∀ i x, char_freq s !! i = Some x →
            char_freq s' !! i = Some (to_int (x + occurrences (Z.of_nat i) input))) ∧
    (∀ i, occurrences (Z.of_nat i) input = 0 → char_freq s' !! i = char_freq s !! i).
Proof.
  intros Hopen Hok.
  destruct (analyze_file_counters fs s o input Hopen Hok)
    as (s' & o' & Hrun & Hcc & _ & _ & Hfreq).
  exists s', o'. split_and!; [done | done | | |].
  - by rewrite Hfreq, length_imap.
  - intros i x Hx. by rewrite Hfreq, list_lookup_imap, Hx.
  - intros i H0. rewrite Hfreq, list_lookup_imap, H0.
    destruct (char_freq s !! i) as [x|] eqn:Hx; [|done]. simpl.
    rewrite Z.add_0_r, to_int_small; [done|].
    destruct Hok as (_ & _ & _ & Hf). by eapply (Forall_lookup_1 _ _ _ _ Hf).
Qed.

(** X4: on an empty file [analyze_file] returns 0 and changes nothing,
    whatever the statistics hold: no counter moves, the table and the store
    are as they were, and no allocation is requested. *)
Theorem empty_file_unchanged fs s o :
  fs (filename s) = Some [] → analyze_file fs s o = (0, s, o).
Proof.
  intros Hopen. unfold analyze_file. rewrite Hopen. by destruct s.
Qed.


Lemma insert_all_None ws o : insert_all None ws o = (None, o).
Proof. induction ws as [|w ws IH]; [done|]. simpl. unfold insert_word. exact IH. Qed.

(** X5: [analyze_file] keeps the invariant of the store it is given and its
    number of buckets (there is no resizing), and it leaves [filename]
    alone, whatever the allocator does. *)
Theorem analysis_keeps_store_invariant fs s o input t :
  fs (filename s) = Some input →
  word_counts s = Some t →
  wf t →
  ∃ s' o' t',
    analyze_file fs s o = (0, s', o') ∧
    filename s' = filename s ∧
    word_counts s' = Some t' ∧
    wf t' ∧ size t' = size t ∧ length (table t') = length (table t).
Proof.
  intros Hopen Ht Hwf.
  destruct (analyze_file_Some fs s o input Hopen)
    as (s' & o' & inw & Hrun & Hname & _ & Hstore).
  rewrite Ht in Hstore. symmetry in Hstore.
  destruct (insert_all_wf _ _ _ _ _ Hwf Hstore) as (t' & Ht' & Hwf' & Hsz & _).
  exists s', o', t'. split_and!; try done.
  destruct Hwf as ((_ & ->) & _). destruct Hwf' as ((_ & ->) & _). by rewrite Hsz.
Qed.

(** X12: with a null store [analyze_file] still succeeds: the store stays
    null and no allocation is requested. *)
Theorem null_store_stays_null fs s o input :
  fs (filename s) = Some input →
  word_counts s = None →
  ∃ s', analyze_file fs s o = (0, s', o) ∧ word_counts s' = None.
Proof.
  intros Hopen Hnull.
  destruct (analyze_file_Some fs s o input Hopen)
    as (s' & o' & inw & Hrun & _ & _ & Hstore).
  rewrite Hnull, insert_all_None in Hstore. injection Hstore as Hs Ho. subst o'.
  by exists s'.
Qed.

(** X13: the return value and the counters of [analyze_file] do not depend
    on the store nor on the allocator: two runs on the same bytes from the
    same counters both return 0 and leave the same [char_count],
    [word_count], [line_count] and frequency table, whatever the two stores
    are (null or not) and whichever allocations fail. *)
Theorem counters_ignore_store fs1 fs2 s1 s2 o1 o2 input :
  fs1 (filename s1) = Some input →
  fs2 (filename s2) = Some input →
  char_count s1 = char_count s2 →
  word_count s1 = word_count s2 →
  line_count s1 = line_count s2 →
  char_freq s1 = char_freq s2 →
  ∃ s1' s2' o1' o2',
    analyze_file fs1 s1 o1 = (0, s1', o1') ∧
    analyze_file fs2 s2 o2 = (0, s2', o2') ∧
    char_count s1' = char_count s2' ∧
    word_count s1' = word_count s2' ∧
    line_count s1' = line_count s2' ∧
    char_freq s1' = char_freq s2'.
Proof.
  intros Hopen1 Hopen2 Hcc Hwc Hlc Hfreq.
  destruct (analyze_file_Some fs1 s1 o1 input Hopen1)
    as (s1' & o1' & inw1 & Hrun1 & _ & Hcount1 & _).
  destruct (analyze_file_Some fs2 s2 o2 input Hopen2)
    as (s2' & o2' & inw2 & Hrun2 & _ & Hcount2 & _).
  rewrite Hcc, Hwc, Hlc, Hfreq, <- Hcount2 in Hcount1.
  injection Hcount1 as ? ? ? ? _.
  exists s1', s2', o1', o2'. done.
Qed.

(** ** The tokens *)

Lemma scan_delimiter buf d rest :
  isalpha (uchar_to_int d) = false →
  scan buf (d :: rest) = (pending buf ++ (scan [] rest).1, (scan [] rest).2).
Proof.
  intros Hd. simpl. unfold scan_byte, pending. rewrite Hd.
  destruct (0 <? Z.of_nat (length buf)) eqn:E.
  - by destruct (scan [] rest).
  - destruct buf; [|simpl in E; apply Z.ltb_ge in E; lia].
    by destruct (scan [] rest).
Qed.

Lemma tokens_delimiter a d b :
  isalpha (uchar_to_int d) = false → tokens (a ++ d :: b) = tokens a ++ tokens b.
Proof.
  intros Hd. unfold tokens. rewrite scan_app, scan_delimiter by done.
  destruct (scan [] a) as [ta fa]. destruct (scan [] b) as [tb fb]. simpl.
  by rewrite <- !app_assoc.
Qed.

Lemma tokens_run run :
  run ≠ [] → Forall alphabetic run → tokens run = [take 99 (fold_case <$> run)].
Proof.
  intros Hne Hrun. unfold tokens. rewrite scan_run by (done || simpl; lia). simpl.
  unfold pending.
  assert (Hlen : (0 < length (take 99 (fold_case <$> run)))%nat).
  { rewrite fold_case_run_length. destruct run; [done|]. simpl. lia. }
  destruct (0 <? _) eqn:E; [done|]. apply Z.ltb_ge in E. lia.
Qed.

(** X8: a byte that is not alphabetic separates tokens. When the file is
    [a], then such a byte, then [b], [analyze_file] hands to [insert_word],
    in order, the tokens of [a] and then the tokens of [b]; the tokens of a
    run of alphabetic bytes are the single token made of its first 99 bytes
    in lower case, and an empty input has no token. *)
Theorem delimiter_separates_tokens fs s o a d b :
  fs (filename s) = Some (a ++ d :: b) →
  isalpha (uchar_to_int d) = false →
  (∃ s' o',
     analyze_file fs s o = (0, s', o') ∧
     (word_counts s', o') =
       insert_all (word_counts s) (Some <$> tokens a ++ tokens b) o) ∧
  tokens (a ++ d :: b) = tokens a ++ tokens b ∧
  tokens [] = [] ∧
  (∀ run, run ≠ [] → Forall alphabetic run →
          tokens run = [take 99 (fold_case <$> run)]).
Proof.
  intros Hopen Hd. split_and!.
  - destruct (analyze_file_Some fs s o _ Hopen) as (s' & o' & inw & Hrun & _ & _ & Hstore).
    exists s', o'. split; [done|]. by rewrite Hstore, tokens_delimiter.
  - by apply tokens_delimiter.
  - done.
  - apply tokens_run.
Qed.

Lemma scan_no_alpha input :
  Forall (λ b, isalpha (uchar_to_int b) = false) input → scan [] input = ([], []).
Proof.
  induction 1 as [|b input Hb _ IH]; [done|].
  rewrite scan_delimiter by done. by rewrite IH.
Qed.

(** X10: a file without any alphabetic byte (digits, punctuation, white
    space) leaves the store as it was and requests no allocation. *)
Theorem no_letters_no_insertion fs s o input :
  fs (filename s) = Some input →
  Forall (λ b, isalpha (uchar_to_int b) = false) input →
  ∃ s', analyze_file fs s o = (0, s', o) ∧ word_counts s' = word_counts s.
Proof.
  intros Hopen Hinput.
  destruct (analyze_file_Some fs s o input Hopen)
    as (s' & o' & inw & Hrun & _ & _ & Hstore).
  unfold tokens in Hstore. rewrite scan_no_alpha in Hstore by done.
  simpl in Hstore. injection Hstore as Hs Ho. subst o'. by exists s'.
Qed.

Lemma isalpha_fold_case b :
  isalpha (uchar_to_int (fold_case b)) = isalpha (uchar_to_int b).
Proof. destruct b; vm_compute; reflexivity. Qed.

Lemma scan_byte_same_case buf a b :
  fold_case a = fold_case b → scan_byte buf a = scan_byte buf b.
Proof.
  intros Hab. unfold scan_byte.
  rewrite <- (isalpha_fold_case a), <- (isalpha_fold_case b), Hab.
  fold (fold_case a). fold (fold_case b). by rewrite Hab.
Qed.

Lemma scan_same_case buf input1 input2 :
  same_case input1 input2 → scan buf input1 = scan buf input2.
Proof.
  intros H. revert buf. induction H as [|a b l1 l2 Hab _ IH]; intros buf; [done|].
  simpl. rewrite (scan_byte_same_case buf a b Hab).
  destruct (scan_byte buf b) as [buf' tok]. by rewrite IH.
Qed.

(** X11: the store does not see the case of letters: on two files that
    differ at most in the case of their letters, [analyze_file] hands the
    same tokens to [insert_word], and so leaves the same store and the same
    allocator. *)
Theorem case_insensitive_store fs1 fs2 s o input1 input2 :
  fs1 (filename s) = Some input1 →
  fs2 (filename s) = Some input2 →
  same_case input1 input2 →
  tokens input1 = tokens input2 ∧
  ∃ s1 s2 o',
    analyze_file fs1 s o = (0, s1, o') ∧
    analyze_file fs2 s o = (0, s2, o') ∧
    word_counts s1 = word_counts s2.
Proof.
  intros Hopen1 Hopen2 Hsame.
  assert (Htok : tokens input1 = tokens input2).
  { unfold tokens. by rewrite (scan_same_case [] _ _ Hsame). }
  split; [done|].
  destruct (analyze_file_Some fs1 s o input1 Hopen1)
    as (s1 & o1 & inw1 & Hrun1 & _ & _ & Hstore1).
  destruct (analyze_file_Some fs2 s o input2 Hopen2)
    as (s2 & o2 & inw2 & Hrun2 & _ & _ & Hstore2).
  rewrite Htok, <- Hstore2 in Hstore1. injection Hstore1 as Hs Ho. subst o2.
  by exists s1, s2, o1.
Qed.

Lemma scan_ok buf input :
  (length buf ≤ 99)%nat →
  Forall (λ c, islower (uchar_to_int c) = true) buf →
  Forall token_ok (scan buf input).1 ∧
  (length (scan buf input).2 ≤ 99)%nat ∧
  Forall (λ c, islower (uchar_to_int c) = true) (scan buf input).2.
Proof.
  revert buf. induction input as [|b input IH]; intros buf Hlen Hlow; simpl.
  - split_and!; [constructor | done | done].
  - unfold scan_byte, MAX_WORD_LEN.
    destruct (isalpha (uchar_to_int b)) eqn:Hb.
    + destruct (Z.of_nat (length buf) <? 100 - 1) eqn:Hfull.
      * apply Z.ltb_lt in Hfull.
        destruct (IH (buf ++ [int_to_char (tolower (uchar_to_int b))])) as (H1 & H2 & H3).
        { rewrite length_app. simpl. lia. }
        { apply Forall_app. split; [done|]. repeat constructor.
          by apply (fold_case_lower b). }
        destruct (scan _ input) as [toks final]. by simpl in *.
      * destruct (IH buf Hlen Hlow) as (H1 & H2 & H3).
        destruct (scan buf input) as [toks final]. by simpl in *.
    + destruct (0 <? Z.of_nat (length buf)) eqn:Hpos.
      * apply Z.ltb_lt in Hpos.
        destruct (IH []) as (H1 & H2 & H3); [simpl; lia | constructor |].
        destruct (scan [] input) as [toks final]. simpl in *.
        split_and!; [|done|done]. constructor; [|done]. split; [lia | done].
      * destruct (IH buf Hlen Hlow) as (H1 & H2 & H3).
        destruct (scan buf input) as [toks final]. by simpl in *.
Qed.

Lemma tokens_ok input : Forall token_ok (tokens input).
Proof.
  unfold tokens. destruct (scan_ok [] input) as (H1 & H2 & H3); [simpl; lia | constructor |].
  destruct (scan [] input) as [toks final]. simpl in *.
  apply Forall_app. split; [done|]. unfold pending.
  destruct (0 <? Z.of_nat (length final)) eqn:E; [|constructor].
  apply Z.ltb_lt in E. apply Forall_cons. split; [|constructor].
  split; [lia | done].
Qed.

(** The words of a store after a sequence of insertions are those it held
    and those inserted. *)
Lemma insert_all_words t ws o t' o' n :
  wf t →
  insert_all (Some t) ws o = (Some t', o') →
  n ∈ entries t' →
  word n ∈ (word <$> entries t) ∨ Some (word n) ∈ ws.
Proof.
  intros Hwf Hall Hn.
  destruct (insert_all_wf _ _ _ _ _ Hwf Hall) as (t'' & [= <-] & Hwf' & _ & Hmap).
  destruct (decide (Some (word n) ∈ ws)) as [?|Hnot]; [by right|]. left.
  assert (Hin : store_map t' !! word n = Some (count n)).
  { apply store_map_lookup_Some; [apply Hwf'|]. by destruct n. }
  pose proof (map_insert_all_other (store_map t) ws o (word n) Hnot) as Hframe.
  rewrite <- Hmap in Hframe. simpl in Hframe. rewrite Hin in Hframe.
  destruct (decide (word n ∈ word <$> entries t)) as [?|Habs]; [done|].
  apply store_map_lookup_None in Habs. congruence.
Qed.

(** X6: a store that holds only words of one to 99 lower-case letters still
    does after [analyze_file], whatever the file holds and whatever the
    allocator does: every token handed to [insert_word] is such a word. *)
Theorem store_holds_lowercase_words fs s o input t :
  fs (filename s) = Some input →
  word_counts s = Some t →
  wf t →
  Forall token_ok (word <$> entries t) →
  Forall token_ok (tokens input) ∧
  ∃ s' o' t',
    analyze_file fs s o = (0, s', o') ∧
    word_counts s' = Some t' ∧
    Forall token_ok (word <$> entries t').
Proof.
  intros Hopen Ht Hwf Hwords. split; [apply tokens_ok|].
  destruct (analyze_file_Some fs s o input Hopen)
    as (s' & o' & inw & Hrun & _ & _ & Hstore).
  rewrite Ht in Hstore. symmetry in Hstore.
  destruct (insert_all_wf _ _ _ _ _ Hwf Hstore) as (t' & Ht' & _ & _ & _).
  exists s', o', t'. split_and!; [done | done |].
  rewrite Ht' in Hstore. apply Forall_fmap, Forall_forall. intros n Hn. simpl.
  destruct (insert_all_words _ _ _ _ _ n Hwf Hstore Hn) as [Hold|Hnew].
  - by apply (proj1 (Forall_forall _ _) Hwords).
  - apply list_elem_of_fmap in Hnew as (w & [= ->] & Hw).
    by apply (proj1 (Forall_forall _ _) (tokens_ok input)).
Qed.

Lemma word_occurrences_cons w x ws :
  word_occurrences w (x :: ws) =
  (if decide (x = Some w) then 1 else 0) + word_occurrences w ws.
Proof.
  unfold word_occurrences. rewrite filter_cons.
  destruct (decide (x = Some w)); simpl; lia.
Qed.

Lemma word_occurrences_nonneg w ws : 0 ≤ word_occurrences w ws.
Proof. unfold word_occurrences. lia. Qed.

(** The mapping after a sequence of insertions, no allocation failing: the
    count of a word grows by the number of times it is inserted. *)
Lemma map_insert_all_closed m ws o w :
  no_failure o →
  (map_insert_all m ws o).1 !! w =
  if decide (word_occurrences w ws = 0) then m !! w
  else Some (to_int (default 0 (m !! w) + word_occurrences w ws)).
Proof.
  revert m o. induction ws as [|[w'|] ws IH]; intros m o Hok.
  - done.
  - cbn [map_insert_all]. rewrite word_occurrences_cons.
    pose proof (word_occurrences_nonneg w ws) as Hnn.
    pose proof (map_insert_word_no_failure m w' o Hok) as [Hok' _].
    assert (Hstep : (map_insert_word m w' o).1 !! w =
                    if decide (w' = w) then Some (to_int (default 0 (m !! w) + 1))
                    else m !! w).
    { destruct (decide (w' = w)) as [->|Hne].
      - rewrite map_insert_word_unfold. destruct (m !! w) as [c|] eqn:Hm; simpl.
        + by rewrite lookup_insert_eq.
        + destruct (node_alloc_no_failure o Hok) as (o2 & -> & _). simpl.
          by rewrite lookup_insert_eq.
      - by apply map_insert_word_other. }
    destruct (map_insert_word m w' o) as [m1 o1]. simpl in Hok', Hstep.
    rewrite (IH m1 o1 Hok'), Hstep.
    destruct (decide (w' = w)) as [->|Hne].
    + rewrite (decide_True (P := Some w = Some w)) by done.
      rewrite (decide_False (P := 1 + word_occurrences w ws = 0)) by lia.
      destruct (decide (word_occurrences w ws = 0)) as [->|_]; simpl.
      * done.
      * rewrite to_int_add_l. do 2 f_equal. lia.
    + rewrite (decide_False (P := Some w' = Some w)) by congruence.
      by rewrite Z.add_0_l.
  - cbn [map_insert_all]. rewrite word_occurrences_cons.
    rewrite (decide_False (P := None = Some w)) by done.
    rewrite Z.add_0_l. by apply IH.
Qed.

(** X7: no allocation failing, [analyze_file] adds to the count of every
    word, as an [int], the number of tokens of the file equal to it, and
    gives no node to a word that is no token of the file. From an empty
    store, a word that is a token at most [INT_MAX] times is mapped to the
    number of its tokens. *)
Theorem word_frequencies fs s o input t :
  fs (filename s) = Some input →
  word_counts s = Some t →
  wf t →
  no_failure o →
  ∃ s' o' t',
    analyze_file fs s o = (0, s', o') ∧
    word_counts s' = Some t' ∧
    ∀ w, let k := word_occurrences w (Some <$> tokens input) in
         store_map t' !! w =
           (if decide (k = 0) then store_map t !! w
            else Some (to_int (default 0 (store_map t !! w) + k))) ∧
         (entries t = [] → k ≤ INT_MAX →
          store_map t' !! w = if decide (k = 0) then None else Some k).
Proof.
  intros Hopen Ht Hwf Hok.
  destruct (analyze_file_Some fs s o input Hopen)
    as (s' & o' & inw & Hrun & _ & _ & Hstore).
  rewrite Ht in Hstore. symmetry in Hstore.
  destruct (insert_all_wf _ _ _ _ _ Hwf Hstore) as (t' & Ht' & _ & _ & Hmap).
  exists s', o', t'. split_and!; [done | done |].
  intros w k.
  pose proof (map_insert_all_closed (store_map t) (Some <$> tokens input) o w Hok) as Hclosed.
  rewrite <- Hmap in Hclosed. simpl in Hclosed. fold k in Hclosed.
  split; [done|]. intros Hempty Hmax. rewrite Hclosed.
  assert (Hnone : store_map t !! w = None).
  { unfold store_map. by rewrite Hempty. }
  rewrite Hnone. destruct (decide (k = 0)); [done|]. simpl.
  pose proof (word_occurrences_nonneg w (Some <$> tokens input)). fold k in H.
  rewrite to_int_small by (unfold INT_MAX in *; lia). done.
Qed.

(** X9: from a store that [create_hash_table] has just returned, no
    allocation failing and no token occurring more than [INT_MAX] times, the
    counts of the store add up to the number of tokens of the file. *)
Theorem counts_add_up_to_tokens fs name sz o0 ht o input :
  fs name = Some input →
  sz ≤ INT_MAX →
  no_failure o0 →
  create_hash_table sz o0 = (Some ht, o) →
  (∀ w, word_occurrences w (Some <$> tokens input) ≤ INT_MAX) →
  ∃ s' o' t,
    analyze_file fs (fresh_stats name (Some ht)) o = (0, s', o') ∧
    word_counts s' = Some t ∧
    sum_counts t = Z.of_nat (length (tokens input)).
Proof.
  intros Hopen Hmax Hok0 Hcreate Hocc.
  destruct (create_hash_table_no_failure sz o0) as (ht' & o' & Hc & Hok);
    [by apply create_hash_table_Some in Hcreate as [? _] | done |].
  rewrite Hcreate in Hc. injection Hc as <- <-.
  destruct (create_hash_table_wf _ _ _ _ Hmax Hcreate) as (Hwf & _ & Hent & _).
  destruct (analyze_file_Some fs (fresh_stats name (Some ht)) o input Hopen)
    as (s' & o' & inw & Hrun & _ & _ & Hstore).
  simpl in Hstore. symmetry in Hstore.
  assert (Hsome : Forall is_Some (Some <$> tokens input)).
  { apply Forall_fmap, Forall_true. intros w. by exists w. }
  assert (Hinv : ∀ n, n ∈ entries ht → 1 ≤ count n ≤ word_occurrences (word n) []).
  { intros n Hn. rewrite Hent in Hn. by apply elem_of_nil in Hn. }
  destruct (insert_all_sum ht [] (Some <$> tokens input) o (word_counts s') o'
              Hwf Hok Hsome Hocc Hinv Hstore) as (t & Ht & Hsum).
  exists s', o', t. split_and!; [done | done |].
  rewrite Hsum, length_fmap. unfold sum_counts. by rewrite Hent.
Qed.

(** * Further properties of the store *)

(** ** [create_hash_table] and [insert_word] once more *)

(** X14: [create_hash_table] returns null without requesting any allocation
    when the size is below 1; a store it returns has the size asked for, that
    many buckets, all empty, and satisfies the invariant of the store; and it
    does return a store for a size of 1 or more when no allocation fails. *)
Theorem create_hash_table_result sz o :
  (sz < 1 → create_hash_table sz o = (None, o)) ∧
  (∀ ht o', create_hash_table sz o = (Some ht, o') →
     1 ≤ sz ∧ size ht = sz ∧ length (table ht) = Z.to_nat sz ∧
     Forall (λ chain, chain = []) (table ht) ∧ store_map ht = ∅ ∧
     (sz ≤ INT_MAX → wf ht)) ∧
  (1 ≤ sz → no_failure o →
     ∃ ht o', create_hash_table sz o = (Some ht, o') ∧ no_failure o').
Proof.
  split_and!.
  - intros Hsz. unfold create_hash_table.
    destruct (sz <? 1) eqn:E; [done|]. apply Z.ltb_ge in E. lia.
  - intros ht o' Hcreate.
    pose proof (create_hash_table_Some _ _ _ _ Hcreate) as [Hsz ->].
    split_and!; try done.
    + simpl. by rewrite length_replicate.
    + simpl. by apply Forall_replicate.
    + unfold store_map, entries. simpl. by rewrite concat_replicate_nil.
    + intros Hmax. by destruct (create_hash_table_wf _ _ _ _ Hmax Hcreate).
  - apply create_hash_table_no_failure.
Qed.

(** X15: on a store that satisfies the invariant, [insert_word] with any
    word, null or not, and any allocator returns a store that satisfies the
    invariant, with the same size and the same number of buckets: the table
    is never resized, and the bucket indexed for the word is one of the
    table. *)
Theorem insert_word_keeps_invariant ht w o :
  wf ht →
  ∃ t' o',
    insert_word (Some ht) w o = (Some t', o') ∧
    wf t' ∧ size t' = size ht ∧ length (table t') = length (table ht) ∧
    ∀ w0, w = Some w0 → (Z.to_nat (bucket_index ht w0) < length (table ht))%nat.
Proof.
  intros Hwf.
  destruct (insert_word (Some ht) w o) as [ht' o'] eqn:Hins.
  destruct (insert_word_wf _ _ _ _ _ Hwf Hins) as (t' & -> & Hwf' & Hsz).
  exists t', o'. split_and!; try done.
  - destruct Hwf as ((_ & ->) & _). destruct Hwf' as ((_ & ->) & _). by rewrite Hsz.
  - intros w0 _. apply lookup_lt_is_Some, bucket_lookup, Hwf.
Qed.

(** X16: what a call of [insert_word] does to the word-to-count mapping of
    a store that satisfies the invariant. The counts of the other words are
    as they were. A word that has a count gets it incremented, as an [int],
    and no allocation is requested. A word that has none gets the count 1
    when the two allocations for its node succeed; when one fails the store
    is left exactly as it was. *)
Theorem insert_word_lookup ht w o ht' o' :
  wf ht →
  insert_word (Some ht) (Some w) o = (ht', o') →
  ∃ t', ht' = Some t' ∧
    (∀ k, k ≠ w → store_map t' !! k = store_map ht !! k) ∧
    match store_map ht !! w with
    | Some c => store_map t' !! w = Some (to_int (c + 1)) ∧ o' = o
    | None => (node_alloc o = (true, o') ∧ store_map t' !! w = Some 1) ∨
              (node_alloc o = (false, o') ∧ t' = ht)
    end.
Proof.
  intros Hwf Hins.
  destruct (insert_word_wf _ _ _ _ _ Hwf Hins) as (t' & -> & Hwf' & _).
  pose proof (insert_word_store_map _ _ _ _ _ Hwf Hins) as Hmap.
  exists t'. split; [done|]. split.
  - intros k Hk. pose proof (map_insert_word_other (store_map ht) w o k Hk) as Hother.
    by rewrite <- Hmap in Hother.
  - rewrite map_insert_word_unfold in Hmap.
    destruct (store_map ht !! w) as [c|] eqn:Hw.
    + injection Hmap as -> ->. by rewrite lookup_insert_eq.
    + destruct (node_alloc o) as [[] o2] eqn:Ha; injection Hmap as Hm ->.
      * left. split; [done|]. by rewrite Hm, lookup_insert_eq.
      * right. split; [done|].
        pose proof Hwf as (Hsh & _ & _).
        destruct (insert_word_spec _ _ _ _ _ Hsh Hins)
          as (t & pre & chain & post & chain' & [= <-] & _ & _ & _ & Hent & _ & _ & Hcases).
        destruct Hcases as [(c1 & m & c2 & -> & _ & Hm' & _)
          | [(_ & Ha' & _) | (_ & _ & _ & ->)]]; [| congruence | done].
        exfalso. apply store_map_lookup_None in Hw. apply Hw.
        apply list_elem_of_fmap. exists m. split; [done|].
        rewrite Hent, !elem_of_app, elem_of_cons. auto.
Qed.

(** X17: where [insert_word] writes. Only the bucket indexed for the word
    changes, and the size is kept. When the word is in the chain of that
    bucket, the first node that holds it gets its count incremented, as an
    [int], the chain keeps its nodes in their order and no allocation is
    requested. When it is not, the outcome is that of the allocation of the
    node: if it succeeds the new node with count 1 becomes the head of the
    chain and the old chain follows it, and if it fails the store is left as
    it was. *)
Theorem insert_word_chain ht w o ht' o' :
  shaped ht →
  insert_word (Some ht) (Some w) o = (ht', o') →
  ∃ t' chain chain',
    ht' = Some t' ∧ size t' = size ht ∧
    table ht !! Z.to_nat (bucket_index ht w) = Some chain ∧
    table t' = <[Z.to_nat (bucket_index ht w) := chain']> (table ht) ∧
    ((∃ c1 n c2,
        chain = c1 ++ (n :: c2) ∧ (w ∉ word <$> c1) ∧ word n = w ∧
        chain' = c1 ++ (mkNode w (to_int (count n + 1)) :: c2) ∧
        word <$> chain' = word <$> chain ∧ o' = o) ∨
     ((w ∉ word <$> chain) ∧
      ((node_alloc o = (true, o') ∧ chain' = mkNode w 1 :: chain) ∨
       (node_alloc o = (false, o') ∧ chain' = chain ∧ t' = ht)))).
Proof.
  intros Hsh Hins.
  destruct (insert_word_spec _ _ _ _ _ Hsh Hins)
    as (t' & pre & chain & post & chain' & -> & Hsz & Htbl & Hchain & _ & _ & _ & Hcases).
  exists t', chain, chain'. split_and!; try done.
  destruct Hcases as [(c1 & m & c2 & -> & Hc1 & Hm & -> & ->)
    | [(Hw & Ha & ->) | (Hw & Ha & -> & ->)]].
  - left. exists c1, m, c2. split_and!; try done.
    rewrite !fmap_app, !fmap_cons. simpl. by rewrite Hm.
  - right. split; [done|]. by left.
  - right. split; [done|]. by right.
Qed.

Lemma word_occurrences_perm w ws1 ws2 :
  ws1 ≡ₚ ws2 → word_occurrences w ws1 = word_occurrences w ws2.
Proof. intros Hperm. unfold word_occurrences. by rewrite Hperm. Qed.

(** X18: the order of the insertions does not matter to the mapping: no
    allocation failing, two sequences of calls of [insert_word] that insert
    the same words the same number of times, in any order, on the same store
    leave stores with the same word-to-count mapping. *)
Theorem insertion_order_irrelevant t ws1 ws2 o1 o2 ht1 ht2 o1' o2' :
  wf t →
  ws1 ≡ₚ ws2 →
  no_failure o1 → no_failure o2 →
  insert_all (Some t) ws1 o1 = (ht1, o1') →
  insert_all (Some t) ws2 o2 = (ht2, o2') →
  ∃ t1 t2, ht1 = Some t1 ∧ ht2 = Some t2 ∧ store_map t1 = store_map t2.
Proof.
  intros Hwf Hperm Hok1 Hok2 Hall1 Hall2.
  destruct (insert_all_wf _ _ _ _ _ Hwf Hall1) as (t1 & -> & _ & _ & Hmap1).
  destruct (insert_all_wf _ _ _ _ _ Hwf Hall2) as (t2 & -> & _ & _ & Hmap2).
  exists t1, t2. split_and!; [done | done |].
  apply map_eq. intros w.
  pose proof (map_insert_all_closed (store_map t) ws1 o1 w Hok1) as H1.
  pose proof (map_insert_all_closed (store_map t) ws2 o2 w Hok2) as H2.
  rewrite <- Hmap1 in H1. rewrite <- Hmap2 in H2. simpl in H1, H2.
  by rewrite H1, H2, (word_occurrences_perm w ws1 ws2 Hperm).
Qed.

(** * The command line of [main] *)

Lemma parse_post_nil a : parse_post [] a a.
Proof.
  unfold parse_post. split_and!; [done | auto | by left |].
  left. split; [done|]. apply not_elem_of_nil.
Qed.

(** One more argument in front, when it is not ["-o"] and leaves the output
    file name alone. *)
Lemma parse_post_cons x rest a a1 a' :
  x ≠ "-o"%string →
  output_filename (options a1) = output_filename (options a) →
  (show_char_freq (options a) = show_word_freq (options a) →
   show_char_freq (options a1) = show_word_freq (options a1)) →
  ((any_option_set a = true → flags_shown (options a) = true) →
   any_option_set a1 = true → flags_shown (options a1) = true) →
  (input_filename a1 = input_filename a ∨
   (input_filename a1 = Some x ∧ starts_with_dash x = false)) →
  parse_post rest a1 a' → parse_post (x :: rest) a a'.
Proof.
  intros Hx Hout Hfreq Hany Hin (Q1 & Q2 & Q3 & Q4). unfold parse_post. split_and!.
  - auto.
  - auto.
  - destruct Q3 as [Q3|(f & ? & ? & ?)].
    + rewrite Q3. destruct Hin as [?|[? ?]]; [by left|].
      right. exists x. split_and!; [done | by left | done].
    + right. exists f. split_and!; [done | by right | done].
  - destruct Q4 as [[Q4 Hno]|(l1 & out & l2 & -> & ?)].
    + left. split; [congruence|]. apply not_elem_of_cons. auto.
    + right. by exists (x :: l1), out, l2.
Qed.

Lemma parse_post_output out rest a a1 a' :
  options a1 =
    {| show_overall_stats := show_overall_stats (options a);
       show_char_freq := show_char_freq (options a);
       show_word_freq := show_word_freq (options a);
       output_filename := Some out |} →
  any_option_set a1 = any_option_set a →
  input_filename a1 = input_filename a →
  parse_post rest a1 a' → parse_post ("-o"%string :: out :: rest) a a'.
Proof.
  intros Hopt Hany Hin (Q1 & Q2 & Q3 & Q4). rewrite Hopt in *. simpl in *.
  unfold parse_post. split_and!.
  - auto.
  - intros H. apply Q2. rewrite Hany. unfold flags_shown in *. by simpl.
  - destruct Q3 as [Q3|(f & ? & ? & ?)]; [left; congruence|].
    right. exists f. split_and!; [done | by do 2 right | done].
  - right. destruct Q4 as [[Q4 Hno]|(l1 & out' & l2 & -> & ?)].
    + by exists [], out, rest.
    + by exists ("-o"%string :: out :: l1), out', l2.
Qed.

Lemma starts_with_dash_o : starts_with_dash "-o" = true.
Proof. reflexivity. Qed.

(** The side conditions of [parse_post_cons] after one turn of the loop. *)
Ltac parse_side :=
  simpl; unfold flags_shown; simpl; rewrite ?orb_true_r; auto; try done.

Lemma parse_arguments_post args :
  (∀ a a', parse_arguments args a = Some a' → parse_post args a a') ∧
  (∀ x a a', parse_arguments (x :: args) a = Some a' → parse_post (x :: args) a a').
Proof.
  induction args as [|y args [IH1 IH2]].
  - assert (Hnil : ∀ a a', parse_arguments [] a = Some a' → parse_post [] a a').
    { intros a a' [= <-]. apply parse_post_nil. }
    split; [done|]. intros x a a'. simpl.
    destruct (_ || _) eqn:Hflag.
    { intros [= <-]. eapply parse_post_cons; [| | | | |apply parse_post_nil]; parse_side.
      intros ->. done. }
    destruct (String.eqb x "--freq") eqn:Hfreq.
    { intros [= <-]. apply String.eqb_eq in Hfreq as ->.
      eapply parse_post_cons; [| | | | |apply parse_post_nil]; parse_side. }
    destruct (String.eqb x "-o") eqn:Ho; [done|].
    destruct (starts_with_dash x) eqn:Hdash; [done|].
    destruct (input_filename a) eqn:Hin; [done|].
    intros [= <-]. apply String.eqb_neq in Ho.
    eapply parse_post_cons; [| | | | |apply parse_post_nil]; parse_side.
  - split; [apply IH2|]. intros x a a'.
    change (parse_arguments (x :: y :: args) a) with
      (if String.eqb x "-c" || String.eqb x "-w" || String.eqb x "-l" then
         parse_arguments (y :: args)
           {| options :=
                {| show_overall_stats := true;
                   show_char_freq := show_char_freq (options a);
                   show_word_freq := show_word_freq (options a);
                   output_filename := output_filename (options a) |};
              any_option_set := true;
              input_filename := input_filename a |}
       else if String.eqb x "--freq" then
         parse_arguments (y :: args)
           {| options :=
                {| show_overall_stats := show_overall_stats (options a);
                   show_char_freq := true;
                   show_word_freq := true;
                   output_filename := output_filename (options a) |};
              any_option_set := true;
              input_filename := input_filename a |}
       else if String.eqb x "-o" then
         parse_arguments args
           {| options :=
                {| show_overall_stats := show_overall_stats (options a);
                   show_char_freq := show_char_freq (options a);
                   show_word_freq := show_word_freq (options a);
                   output_filename := Some y |};
              any_option_set := any_option_set a;
              input_filename := input_filename a |}
       else if starts_with_dash x then None
       else
         match input_filename a with
         | Some _ => None
         | None =>
             parse_arguments (y :: args)
               {| options := options a; any_option_set := any_option_set a;
                  input_filename := Some x |}
         end).
    destruct (_ || _) eqn:Hflag.
    { intros Hp%IH2. eapply parse_post_cons; [| | | | |exact Hp]; parse_side.
      intros ->. done. }
    destruct (String.eqb x "--freq") eqn:Hfreq.
    { intros Hp%IH2. apply String.eqb_eq in Hfreq as ->.
      eapply parse_post_cons; [| | | | |exact Hp]; parse_side. }
    destruct (String.eqb x "-o") eqn:Ho.
    { intros Hp%IH1. apply String.eqb_eq in Ho as ->.
      eapply parse_post_output; [| | |exact Hp]; done. }
    destruct (starts_with_dash x) eqn:Hdash; [done|].
    destruct (input_filename a) eqn:Hin; [done|].
    intros Hp%IH2. apply String.eqb_neq in Ho.
    eapply parse_post_cons; [| | | | |exact Hp]; parse_side.
Qed.

(** The variables of [main] after a loop that did not return. *)
Lemma command_line_Some argv opts input :
  command_line argv = Some (opts, input) →
  ∃ a, parse_arguments (drop 1 argv) no_arguments = Some a ∧
       input_filename a = Some input ∧
       output_filename opts = output_filename (options a) ∧
       show_char_freq opts = show_word_freq opts ∧
       flags_shown opts = true.
Proof.
  unfold command_line. destruct argv as [|prog [|x args]]; [done | done |].
  change (drop 1 (prog :: x :: args)) with (x :: args).
  destruct (parse_arguments (x :: args) no_arguments) as [a|] eqn:Hparse; [|done].
  destruct (input_filename a) as [f|] eqn:Hin; [|done].
  destruct (proj2 (parse_arguments_post args) x _ _ Hparse) as (Q1 & Q2 & _ & _).
  destruct (any_option_set a) eqn:Hany; intros [= <- <-]; exists a.
  - split_and!; try done; [by apply Q1 | by apply Q2].
  - done.
Qed.

(** X19: when [main] gets past its command line, at least one section of
    the report is shown, the character and the word frequencies are shown
    together or not at all, and the input file is one of the arguments that
    follow the program name, one that does not start with a dash. *)
Theorem command_line_accepts argv opts input :
  command_line argv = Some (opts, input) →
  flags_shown opts = true ∧
  show_char_freq opts = show_word_freq opts ∧
  input ∈ drop 1 argv ∧
  starts_with_dash input = false.
Proof.
  intros Hcl.
  destruct (command_line_Some _ _ _ Hcl) as (a & Hparse & Hin & _ & Hfreq & Hshown).
  split_and!; try done.
  - destruct (proj1 (parse_arguments_post _) _ _ Hparse) as (_ & _ & [Q3|(f & Hf & ? & ?)] & _).
    + rewrite Hin in Q3. done.
    + congruence.
  - destruct (proj1 (parse_arguments_post _) _ _ Hparse) as (_ & _ & [Q3|(f & Hf & ? & ?)] & _).
    + rewrite Hin in Q3. done.
    + congruence.
Qed.

(** X20: when [main] gets past its command line, the report goes to a file
    exactly when ["-o"] is among the arguments, and the file is an argument
    that comes right after a ["-o"]. *)
Theorem command_line_output argv opts input :
  command_line argv = Some (opts, input) →
  (output_filename opts = None ↔ "-o"%string ∉ drop 1 argv) ∧
  (∀ out, output_filename opts = Some out →
          ∃ l1 l2, drop 1 argv = l1 ++ "-o"%string :: out :: l2).
Proof.
  intros Hcl.
  destruct (command_line_Some _ _ _ Hcl) as (a & Hparse & _ & Hout & _).
  destruct (proj1 (parse_arguments_post _) _ _ Hparse) as (_ & _ & _ & Q4).
  rewrite Hout. simpl in Q4. split.
  - destruct Q4 as [[-> Hno]|(l1 & out & l2 & -> & ->)]; [done|].
    split; [done|]. intros Hno. exfalso. apply Hno.
    rewrite elem_of_app, elem_of_cons. auto.
  - intros out Hsome.
    destruct Q4 as [[Q4 Hno]|(l1 & out' & l2 & Hargs & Q4)]; [congruence|].
    exists l1, l2. congruence.
Qed.

(** * What allocation failures can do *)

(** The counts of the mapping stay between 1 and the number of insertions of
    their word, whatever the allocator does. *)
Lemma map_insert_all_bounds m ws done_ws o :
  (∀ w, word_occurrences w (done_ws ++ ws) ≤ INT_MAX) →
  (∀ w c, m !! w = Some c → 1 ≤ c ≤ word_occurrences w done_ws) →
  ∀ w c, (map_insert_all m ws o).1 !! w = Some c →
         1 ≤ c ≤ word_occurrences w (done_ws ++ ws).
Proof.
  revert m done_ws o. induction ws as [|[w'|] ws IH]; intros m done_ws o Hmax Hinv.
  - rewrite app_nil_r. apply Hinv.
  - cbn [map_insert_all].
    destruct (map_insert_word m w' o) as [m1 o1] eqn:Hstep.
    rewrite cons_middle, app_assoc in Hmax |- *.
    apply IH; [done|]. intros w c Hc.
    rewrite map_insert_word_unfold in Hstep.
    rewrite word_occurrences_snoc.
    destruct (decide (w = w')) as [->|Hne].
    + rewrite decide_True by done.
      pose proof (Hmax w') as Hw.
      pose proof (word_occurrences_app_le w' (done_ws ++ [Some w']) ws) as Hle.
      rewrite word_occurrences_snoc, decide_True in Hle by done.
      pose proof (word_occurrences_nonneg w' done_ws).
      destruct (m !! w') as [c0|] eqn:Hm.
      * injection Hstep as <- <-. rewrite lookup_insert_eq in Hc. injection Hc as <-.
        pose proof (Hinv w' c0 Hm).
        rewrite to_int_small by (unfold INT_MAX in *; lia). lia.
      * destruct (node_alloc o) as [[] o2]; injection Hstep as <- <-.
        -- rewrite lookup_insert_eq in Hc. injection Hc as <-. lia.
        -- congruence.
    + rewrite decide_False by congruence. rewrite Z.add_0_r. apply Hinv.
      destruct (m !! w') as [c0|]; [|destruct (node_alloc o) as [[] o2]];
        injection Hstep as <- <-; by rewrite ?lookup_insert_ne in Hc.
  - cbn [map_insert_all]. rewrite cons_middle, app_assoc in Hmax |- *.
    apply IH; [done|]. intros w c Hc. rewrite word_occurrences_snoc.
    rewrite decide_False by done. rewrite Z.add_0_r. by apply Hinv.
Qed.

(** X21: an allocation failure can only lose occurrences. From a store that
    [create_hash_table] has just returned, whichever allocations fail during
    the analysis, every word of the store is a token of the file, and its
    count is at least 1 and at most the number of tokens equal to it
    (provided no token occurs more than [INT_MAX] times). *)
Theorem never_overcounts fs name sz o0 ht o1 o input :
  fs name = Some input →
  sz ≤ INT_MAX →
  create_hash_table sz o0 = (Some ht, o1) →
  (∀ w, word_occurrences w (Some <$> tokens input) ≤ INT_MAX) →
  ∃ s' o' t,
    analyze_file fs (fresh_stats name (Some ht)) o = (0, s', o') ∧
    word_counts s' = Some t ∧
    ∀ n, n ∈ entries t →
         word n ∈ tokens input ∧
         1 ≤ count n ≤ word_occurrences (word n) (Some <$> tokens input).
Proof.
  intros Hopen Hmax Hcreate Hocc.
  destruct (create_hash_table_wf _ _ _ _ Hmax Hcreate) as (Hwf & _ & Hent & Hempty).
  destruct (analyze_file_Some fs (fresh_stats name (Some ht)) o input Hopen)
    as (s' & o' & inw & Hrun & _ & _ & Hstore).
  simpl in Hstore. symmetry in Hstore.
  destruct (insert_all_wf _ _ _ _ _ Hwf Hstore) as (t & Ht & Hwf' & _ & Hmap).
  exists s', o', t. split_and!; [done | done |].
  intros n Hn. rewrite Ht in Hstore. split.
  - destruct (insert_all_words _ _ _ _ _ n Hwf Hstore Hn) as [Hold|Hnew].
    + rewrite Hent in Hold. by apply elem_of_nil in Hold.
    + by apply list_elem_of_fmap in Hnew as (w & [= ->] & Hw).
  - apply (map_insert_all_bounds (store_map ht) (Some <$> tokens input) [] o Hocc).
    + intros w c Hc. by rewrite Hempty, lookup_empty in Hc.
    + rewrite <- Hmap. simpl. apply store_map_lookup_Some; [apply Hwf'|]. by destruct n.
Qed.

(** * Files read one after the other *)

Lemma isspace_not_alpha b :
  isspace (uchar_to_int b) = true → isalpha (uchar_to_int b) = false.
Proof. destruct b; vm_compute; congruence. Qed.

Lemma analyze_byte_space l b :
  isspace (uchar_to_int b) = true →
  in_word (analyze_byte l b) = 0 ∧ word_buffer (analyze_byte l b) = [].
Proof.
  intros Hb. split.
  - pose proof (analyze_byte_counters l b) as Hc.
    unfold counters_of, count_byte in Hc. rewrite Hb in Hc. by injection Hc.
  - destruct (analyze_byte_tokenizer l b) as [-> _].
    unfold scan_byte. rewrite (isspace_not_alpha b Hb).
    destruct (word_buffer l) as [|c buf]; [done|].
    destruct (0 <? _) eqn:E; [done|]. apply Z.ltb_ge in E. simpl length in E. lia.
Qed.

(** After an input that is empty or ends with white space, the locals are
    those of a call that starts. *)
Lemma analyze_loop_ends_space a s o :
  from_option (λ d, isspace (uchar_to_int d) = true) True (last a) →
  let l := analyze_loop a (enter s o) in
  flush l = l ∧ l = enter (stats l) (heap l).
Proof.
  intros Hlast l.
  assert (Hl : in_word l = 0 ∧ word_buffer l = []).
  { unfold l. destruct a as [|d a _] using rev_ind; [done|].
    rewrite last_snoc in Hlast. simpl in Hlast.
    rewrite analyze_loop_app. by apply analyze_byte_space. }
  destruct Hl as [Hin Hbuf]. split.
  - unfold flush. by rewrite Hbuf.
  - unfold enter. destruct l. simpl in *. by subst.
Qed.

(** X23: analyses compose at white space. When a first file is empty or
    ends with a white-space byte, calling [analyze_file] on it and then, with
    the statistics and the allocator it leaves, on a second file gives the
    result of one call on the bytes of the first file followed by those of
    the second. *)
Theorem analysis_composes fs1 fs2 fs12 s o a b s1 o1 :
  fs1 (filename s) = Some a →
  fs2 (filename s) = Some b →
  fs12 (filename s) = Some (a ++ b) →
  from_option (λ d, isspace (uchar_to_int d) = true) True (last a) →
  analyze_file fs1 s o = (0, s1, o1) →
  analyze_file fs2 s1 o1 = analyze_file fs12 s o.
Proof.
  intros Hopen1 Hopen2 Hopen12 Hlast Hrun1.
  destruct (analyze_loop_ends_space a s o Hlast) as [Hflush Henter].
  unfold analyze_file in Hrun1. rewrite Hopen1, Hflush in Hrun1.
  injection Hrun1 as Hs1 Ho1.
  assert (Hname : filename s1 = filename s).
  { rewrite <- Hs1. apply analyze_loop_filename. }
  unfold analyze_file. rewrite Hname, Hopen2, Hopen12, analyze_loop_app.
  by rewrite Henter, Hs1, Ho1.
Qed.

End Program.

(** * The two kinds of platform *)

Lemma hash_ascii w : ascii_word w → hash true w = hash false w.
Proof.
  intros Hw. unfold hash. rewrite !hash_acc_djb2.
  rewrite (djb2_spec true w (or_intror Hw)).
  by rewrite (djb2_spec false w (or_introl eq_refl)).
Qed.

Lemma insert_word_ascii ht w o :
  from_option ascii_word True w →
  insert_word true ht w o = insert_word false ht w o.
Proof.
  intros Hw. destruct ht as [t|], w as [w|]; try done. simpl in Hw.
  unfold insert_word, bucket_index. by rewrite (hash_ascii w Hw).
Qed.

Lemma insert_all_ascii ht ws o :
  Forall (from_option ascii_word True) ws →
  insert_all true ht ws o = insert_all false ht ws o.
Proof.
  intros Hws. revert ht o. induction Hws as [|w ws Hw _ IH]; intros ht o; [done|].
  simpl. rewrite (insert_word_ascii ht w o Hw).
  destruct (insert_word false ht w o) as [ht' o']. apply IH.
Qed.

Lemma token_ok_ascii w : token_ok w → ascii_word w.
Proof.
  intros [_ Hlow]. eapply Forall_impl; [exact Hlow|]. intros c Hc. simpl in Hc.
  unfold islower in Hc. apply andb_prop in Hc as [_ Hc]. apply Z.leb_le in Hc. lia.
Qed.

(** X22: [analyze_file] does not depend on whether plain [char] is signed:
    the words it hands to [insert_word] are made of lower-case letters, on
    which [hash] is the same on both kinds of platform. The value returned,
    the statistics, the store with its layout, and the allocator are the
    same. *)
Theorem analyze_file_char_signedness fs s o :
  analyze_file true fs s o = analyze_file false fs s o.
Proof.
  destruct (fs (filename s)) as [input|] eqn:Hopen.
  - destruct (analyze_file_Some true fs s o input Hopen)
      as (s1 & o1 & inw1 & -> & Hname1 & Hcount1 & Hstore1).
    destruct (analyze_file_Some false fs s o input Hopen)
      as (s2 & o2 & inw2 & -> & Hname2 & Hcount2 & Hstore2).
    rewrite insert_all_ascii in Hstore1.
    + rewrite <- Hstore2 in Hstore1. rewrite <- Hcount2 in Hcount1.
      destruct s1, s2. simpl in *. congruence.
    + apply Forall_fmap. eapply Forall_impl; [apply tokens_ok|].
      intros w Hw. by apply token_ok_ascii.
  - unfold analyze_file. by rewrite Hopen.
Qed.

(** * Concrete runs *)

(** C5 at a file system without files. *)
Lemma analyze_file_open_failure_witness :
  let fs : filesystem := λ _, None in
  let s := fresh_stats "missing.txt" (create_hash_table 4096 []).1 in
  fs (filename s) = None ∧ analyze_file true fs s [] = (-1, s, []).
Proof.
  split; [reflexivity|]. apply analyze_file_open_failure. reflexivity.
Defined.

(** C1 with the 4096 buckets of [main]. *)
Lemma analyze_file_cat_witness :
  let fs : filesystem := λ _, Some (text "Cat cat CAT." ++ [x0a]) in
  let ht := mkHashTable 4096 (replicate 4096 []) in
  fs "cat.txt"%string = Some (text "Cat cat CAT." ++ [x0a]) ∧
  4096 ≤ INT_MAX ∧
  no_failure [] ∧
  create_hash_table 4096 [] = (Some ht, []) ∧
  ∃ s' o' t,
    analyze_file true fs (fresh_stats "cat.txt" (Some ht)) [] = (0, s', o') ∧
    char_count s' = 13 ∧ word_count s' = 3 ∧ line_count s' = 1 ∧
    word_counts s' = Some t ∧
    store_map t = {[text "cat" := 3]} ∧
    entries t = [mkNode (text "cat") 3].
Proof.
  assert (H1 : 4096 ≤ INT_MAX) by (unfold INT_MAX; lia).
  assert (H2 : no_failure []) by constructor.
  split_and!; [reflexivity | exact H1 | exact H2 | reflexivity |].
  exact (analyze_file_cat true (λ _, Some (text "Cat cat CAT." ++ [x0a])) "cat.txt"%string 4096 []
           _ [] eq_refl H1 H2 eq_refl).
Defined.

(** C2 as the specification states it fails on an input of 2^31 bytes ['a']:
    the entry of ['a'] wraps around to [INT_MIN], the other entries are 0, and
    [char_count] is 2^31. *)
Lemma frequency_sum_overflow :
  let input := replicate (Z.to_nat 2147483648) "a"%byte in
  let fs : filesystem := λ _, Some input in
  let r := analyze_file true fs (fresh_stats "a.txt" (create_hash_table 4096 []).1) [] in
  r.1.1 = 0 ∧
  char_count r.1.2 = 2147483648 ∧
  sum_list_Z (char_freq r.1.2) = -2147483648 ∧
  sum_list_Z (char_freq r.1.2) ≠ char_count r.1.2.
Proof.
  intros input fs r.
  destruct (analyze_file_fresh_counters true fs "a.txt"%string (create_hash_table 4096 []).1 []
              input eq_refl) as (s' & o' & Hrun & Hcc & Hfreq).
  subst r. rewrite Hrun. cbn [fst snd].
  assert (Hc : char_count s' = 2147483648).
  { rewrite Hcc. subst input. rewrite length_replicate, Z2Nat.id by lia. reflexivity. }
  assert (Hs : sum_list_Z (char_freq s') = -2147483648).
  { rewrite Hfreq. unfold histogram. subst input.
    rewrite (list_fmap_ext _
      (λ i : nat, to_int (if decide (uchar_to_int "a"%byte = Z.of_nat i)
                          then 2147483648 else 0))).
    - vm_compute. reflexivity.
    - intros i x _. rewrite occurrences_replicate, Z2Nat.id by lia. reflexivity. }
  rewrite Hc, Hs. clear. split_and!; [reflexivity | reflexivity | reflexivity | lia].
Qed.

(** C2, amended, on a short input. *)
Lemma frequency_sum_witness :
  let input := text "to be or not to be" in
  let fs : filesystem := λ _, Some input in
  fs "hamlet.txt"%string = Some input ∧
  (∀ c, occurrences c input ≤ INT_MAX) ∧
  ∃ s' o',
    analyze_file true fs (fresh_stats "hamlet.txt" None) [] = (0, s', o') ∧
    sum_list_Z (char_freq s') = char_count s'.
Proof.
  intros input fs.
  assert (H : ∀ c, occurrences c input ≤ INT_MAX).
  { intros c. pose proof (occurrences_le_length c input) as Hle.
    simpl in Hle. unfold INT_MAX. lia. }
  split_and!; [reflexivity | exact H |].
  exact (frequency_sum true fs "hamlet.txt"%string None [] input eq_refl H).
Defined.

(** C3 on a store of 4096 buckets that already holds two words. *)
Lemma insert_twice_one_entry_witness :
  let ht0 := mkHashTable 4096 (replicate 4096 []) in
  let ws := [Some (text "to"); Some (text "be"); Some (text "to")] in
  let r := insert_all true (Some ht0) ws [] in
  4096 ≤ INT_MAX ∧
  create_hash_table 4096 [] = (Some ht0, []) ∧
  insert_all true (Some ht0) ws [] = (r.1, r.2) ∧
  ∃ t, r.1 = Some t ∧
       NoDup (word <$> entries t) ∧
       ∀ w, Some w ∉ ws → no_failure r.2 →
            ∃ t2 o2, insert_all true (Some t) [Some w; Some w] r.2 = (Some t2, o2) ∧
                     NoDup (word <$> entries t2) ∧
                     filter (λ n, word n = w) (entries t2) = [mkNode w 2].
Proof.
  intros ht0 ws r.
  assert (H1 : 4096 ≤ INT_MAX) by (unfold INT_MAX; lia).
  assert (H3 : insert_all true (Some ht0) ws [] = (r.1, r.2)) by (vm_compute; reflexivity).
  split_and!; [exact H1 | reflexivity | exact H3 |].
  exact (insert_twice_one_entry true 4096 [] ht0 [] ws r.1 r.2 H1 eq_refl H3).
Defined.

(** C4 as the specification states it fails with 1000 buckets on the word
    "word": its accumulator is 6385842145, which is 145 modulo 1000, and the
    node lies in bucket 849, since [hash] returns 6385842145 modulo 2^32. *)
Lemma bucket_of_word_not_spec :
  let store sgn :=
    (insert_all sgn (create_hash_table 1000 []).1 [Some (text "word")] []).1 in
  spec_djb2 (text "word") = 6385842145 ∧
  spec_bucket_index (text "word") 1000 = 145 ∧
  ∀ sgn, hash sgn (text "word") = 2090874849 ∧
         ∃ t, store sgn = Some t ∧
              table t !! 145%nat = Some [] ∧
              table t !! 849%nat = Some [mkNode (text "word") 1].
Proof.
  intros store. split_and!; [vm_compute; reflexivity | vm_compute; reflexivity |].
  intros sgn. split; [destruct sgn; vm_compute; reflexivity|].
  exists (mkHashTable 1000 (<[849%nat := [mkNode (text "word") 1]]> (replicate 1000 []))).
  split_and!; [destruct sgn; vm_compute; reflexivity | vm_compute; reflexivity ..].
Qed.

(** C4, amended, with 1000 buckets and the word "word". *)
Lemma bucket_of_word_witness :
  let ht0 := mkHashTable 1000 (replicate 1000 []) in
  let ws := [Some (text "word")] in
  let r := insert_all true (Some ht0) ws [] in
  1000 ≤ INT_MAX ∧
  create_hash_table 1000 [] = (Some ht0, []) ∧
  insert_all true (Some ht0) ws [] = (r.1, r.2) ∧
  ∃ t, r.1 = Some t ∧
    (∀ i chain n, table t !! i = Some chain → n ∈ chain →
       Z.of_nat i = hash true (word n) mod 1000) ∧
    (∀ w, hash true w = djb2 true w mod 4294967296 ∧
          (true = false ∨ ascii_word w →
           hash true w = spec_djb2 w mod 4294967296)) ∧
    (no_failure [] → ∀ w, Some w ∈ ws →
       ∃ chain n, table t !! Z.to_nat (hash true w mod 1000) = Some chain ∧
                  n ∈ chain ∧ word n = w).
Proof.
  intros ht0 ws r.
  assert (H1 : 1000 ≤ INT_MAX) by (unfold INT_MAX; lia).
  assert (H3 : insert_all true (Some ht0) ws [] = (r.1, r.2)) by (vm_compute; reflexivity).
  split_and!; [exact H1 | reflexivity | exact H3 |].
  exact (bucket_of_word true 1000 [] ht0 [] ws r.1 r.2 H1 eq_refl H3).
Defined.

(** C6 on a file that ends with the word "End" and holds it once before:
    the count of "end" goes from 1 to 2. *)
Lemma pending_token_inserted_witness :
  let input := text "the end and the End" in
  let fs : filesystem := λ _, Some input in
  let ht := mkHashTable 4096 (replicate 4096 []) in
  let s := fresh_stats "story.txt" (Some ht) in
  fs (filename s) = Some input ∧
  from_option alphabetic False (last input) ∧
  word_counts s = Some ht ∧ wf true ht ∧
  ∃ pre run,
    input = pre ++ run ∧ ends_token pre ∧ run ≠ [] ∧ Forall alphabetic run ∧
    let before := analyze_loop true pre (enter s []) in
    let l := analyze_loop true input (enter s []) in
    let token := take 99 (fold_case <$> run) in
    Forall (λ c, islower (uchar_to_int c) = true) token ∧
    word_buffer l = token ∧
    word_counts (stats l) = word_counts (stats before) ∧
    heap l = heap before ∧
    ∃ s' o' tb t',
      analyze_file true fs s [] = (0, s', o') ∧
      word_counts (stats before) = Some tb ∧
      word_counts s' = Some t' ∧
      insert_word true (Some tb) (Some token) (heap before) = (Some t', o') ∧
      wf true t' ∧
      (∀ k, k ≠ token → store_map t' !! k = store_map tb !! k) ∧
      match store_map tb !! token with
      | Some c => store_map t' !! token = Some (to_int (c + 1)) ∧ o' = heap before
      | None => (node_alloc (heap before) = (true, o') ∧ store_map t' !! token = Some 1) ∨
                (node_alloc (heap before) = (false, o') ∧ t' = tb)
      end ∧
      (no_failure [] →
       store_map t' !! token = Some (to_int (default 0 (store_map tb !! token) + 1))).
Proof.
  intros input fs ht s.
  assert (H1 : fs (filename s) = Some input) by reflexivity.
  assert (H2 : from_option alphabetic False (last input)) by reflexivity.
  assert (H3 : word_counts s = Some ht) by reflexivity.
  assert (H4 : wf true ht).
  { apply (create_hash_table_wf true 4096 [] ht []); [unfold INT_MAX; lia | reflexivity]. }
  split_and!; [exact H1 | exact H2 | exact H3 | exact H4 |].
  exact (pending_token_inserted true fs s [] input ht H1 H2 H3 H4).
Defined.

(** C7 on a run of 120 letters after a word and a space. *)
Lemma long_run_truncated_witness :
  let pre := text "see " in
  let run := replicate 120 "Z"%byte in
  let ht := mkHashTable 4096 (replicate 4096 []) in
  let s := fresh_stats "long.txt" (Some ht) in
  ends_token pre ∧ Forall alphabetic run ∧ (99 < length run)%nat ∧
  word_counts s = Some ht ∧ wf true ht ∧
  let before := analyze_loop true pre (enter s []) in
  let token := fold_case <$> take 99 run in
  length token = 99%nat ∧
  Forall (λ c, islower (uchar_to_int c) = true) token ∧
  ∃ tb t' o',
    word_counts (stats before) = Some tb ∧
    insert_word true (Some tb) (Some token) (heap before) = (Some t', o') ∧
    wf true t' ∧
    (∀ k, k ≠ token → store_map t' !! k = store_map tb !! k) ∧
    match store_map tb !! token with
    | Some c => store_map t' !! token = Some (to_int (c + 1)) ∧ o' = heap before
    | None => (node_alloc (heap before) = (true, o') ∧ store_map t' !! token = Some 1) ∨
              (node_alloc (heap before) = (false, o') ∧ t' = tb)
    end ∧
    (no_failure [] →
     store_map t' !! token = Some (to_int (default 0 (store_map tb !! token) + 1))) ∧
    (∀ d post, isalpha (uchar_to_int d) = false →
       let l := analyze_loop true (pre ++ run ++ [d]) (enter s []) in
       analyze_loop true (pre ++ run ++ d :: post) (enter s []) = analyze_loop true post l ∧
       word_buffer l = [] ∧
       word_counts (stats l) = Some t' ∧ heap l = o') ∧
    (∀ fs, fs (filename s) = Some (pre ++ run) →
       ∃ s', analyze_file true fs s [] = (0, s', o') ∧ word_counts s' = Some t').
Proof.
  intros pre run ht s.
  assert (H1 : ends_token pre) by reflexivity.
  assert (H2 : Forall alphabetic run) by (repeat constructor).
  assert (H3 : (99 < length run)%nat) by (simpl; lia).
  assert (H4 : word_counts s = Some ht) by reflexivity.
  assert (H5 : wf true ht).
  { apply (create_hash_table_wf true 4096 [] ht []); [unfold INT_MAX; lia | reflexivity]. }
  split_and!; [exact H1 | exact H2 | exact H3 | exact H4 | exact H5 |].
  exact (long_run_truncated true s [] pre run ht H1 H2 H3 H4 H5).
Defined.

(** C8 on one input, with stores of 4096 and of 17 buckets and two
    oracles without failure. *)
Lemma analyze_file_deterministic_witness :
  let input := text "To be, or not to be: that is the question." in
  let fs : filesystem := λ _, Some input in
  let ht1 := mkHashTable 4096 (replicate 4096 []) in
  let ht2 := mkHashTable 17 (replicate 17 []) in
  fs "hamlet.txt"%string = Some input ∧
  fs "copy.txt"%string = Some input ∧
  4096 ≤ INT_MAX ∧ 17 ≤ INT_MAX ∧
  create_hash_table 4096 [] = (Some ht1, []) ∧
  create_hash_table 17 [] = (Some ht2, []) ∧
  ([] = [true; true] ∨ (no_failure [] ∧ no_failure [true; true])) ∧
  ∃ s1 s2 o1' o2' t1 t2,
    analyze_file true fs (fresh_stats "hamlet.txt" (Some ht1)) [] = (0, s1, o1') ∧
    analyze_file true fs (fresh_stats "copy.txt" (Some ht2)) [true; true] = (0, s2, o2') ∧
    char_count s1 = char_count s2 ∧
    word_count s1 = word_count s2 ∧
    line_count s1 = line_count s2 ∧
    char_freq s1 = char_freq s2 ∧
    word_counts s1 = Some t1 ∧ word_counts s2 = Some t2 ∧
    store_map t1 = store_map t2.
Proof.
  intros input fs ht1 ht2.
  assert (H1 : 4096 ≤ INT_MAX) by (unfold INT_MAX; lia).
  assert (H2 : 17 ≤ INT_MAX) by (unfold INT_MAX; lia).
  assert (H3 : [] = [true; true] ∨ (no_failure [] ∧ no_failure [true; true])).
  { right. split; repeat constructor. }
  split_and!;
    [reflexivity | reflexivity | exact H1 | exact H2 | reflexivity | reflexivity | exact H3 |].
  exact (analyze_file_deterministic true fs fs "hamlet.txt"%string "copy.txt"%string input
           4096 17 [] [] ht1 ht2 [] [] [] [true; true]
           eq_refl eq_refl H1 H2 eq_refl eq_refl H3).
Defined.

(** C9 as written fails on the store that 2^31 - 1 calls with the word "a"
    leave: one more call takes the count of "a" from [INT_MAX] to
    [INT_MIN]. *)
Lemma insert_word_count_wraps :
  let a := text "a" in
  let full := mkHashTable 1 [[mkNode a 2147483647]] in
  insert_all true (create_hash_table 1 []).1 (replicate (Z.to_nat 2147483647) (Some a)) []
    = (Some full, []) ∧
  insert_word true (Some full) (Some a) []
    = (Some (mkHashTable 1 [[mkNode a (-2147483648)]]), []).
Proof.
  intros a full. split; [|vm_compute; reflexivity].
  destruct (repeated_insert true 1 (Z.to_nat 2147483646) a) as (t & Hall & Hwf & Hsz & Hent);
    [unfold INT_MAX; lia|].
  replace (Z.to_nat 2147483647) with (S (Z.to_nat 2147483646)) by lia.
  etrans; [exact Hall|]. clear Hall. do 2 f_equal.
  rewrite Nat2Z.inj_succ, Z2Nat.id in Hent by lia.
  change (to_int (Z.succ 2147483646)) with 2147483647 in Hent.
  destruct Hwf as ((_ & Hlen) & _ & _). rewrite Hsz in Hlen.
  destruct t as [sz [|chain [|??]]]; simpl in Hsz, Hlen; try done.
  unfold entries in Hent. simpl in Hent. rewrite app_nil_r in Hent. subst.
  reflexivity.
Qed.

(** C9, amended, on a store of two buckets that holds the words "c" and
    "a" in its first bucket and "b" in its second: a call with "a"
    increments the second node of the first chain and leaves the nodes of
    "c" and "b" as they are. *)
Lemma insert_word_frame_witness :
  let ht := mkHashTable 2 [[mkNode (text "c") 5; mkNode (text "a") 1];
                           [mkNode (text "b") 3]] in
  let r := insert_word true (Some ht) (Some (text "a")) [] in
  shaped ht ∧
  insert_word true (Some ht) (Some (text "a")) [] = (r.1, r.2) ∧
  ∃ t', r.1 = Some t' ∧
    (∀ i, filter (λ n, word n ≠ text "a") <$> (table t' !! i) =
          filter (λ n, word n ≠ text "a") <$> (table ht !! i)) ∧
    (∀ n, n ∈ entries ht →
          ∃ n', n' ∈ entries t' ∧ word n' = word n ∧
                (word n ≠ text "a" → count n' = count n) ∧
                (count n < INT_MAX → count n ≤ count n')).
Proof.
  intros ht r.
  assert (H1 : shaped ht) by (split; [unfold INT_MAX; simpl; lia | reflexivity]).
  assert (H2 : insert_word true (Some ht) (Some (text "a")) [] = (r.1, r.2))
    by (vm_compute; reflexivity).
  split_and!; [exact H1 | exact H2 |].
  exact (insert_word_frame true ht (text "a") [] r.1 r.2 H1 H2).
Defined.

(** C10 as written fails for 2^31 calls with the word "a": the store then
    holds one node, whose count has wrapped around to [INT_MIN]. *)
Lemma count_sum_overflow :
  let ws := replicate (Z.to_nat 2147483648) (Some (text "a")) in
  let r := insert_all true (create_hash_table 4096 []).1 ws [] in
  Z.of_nat (length ws) = 2147483648 ∧
  sum_counts <$> r.1 = Some (-2147483648).
Proof.
  intros ws r. split.
  - unfold ws. rewrite length_replicate. lia.
  - destruct (repeated_insert true 4096 (Z.to_nat 2147483647) (text "a"))
      as (t & Hall & _ & _ & Hent); [unfold INT_MAX; lia|].
    assert (Hr : r = (Some t, [])).
    { unfold r, ws. replace (Z.to_nat 2147483648) with (S (Z.to_nat 2147483647)) by lia.
      exact Hall. }
    clearbody r. clear Hall ws. subst r. cbn [fst fmap option_fmap option_map]. f_equal.
    unfold sum_counts. rewrite Hent.
    rewrite Nat2Z.inj_succ, Z2Nat.id by lia. vm_compute. reflexivity.
Qed.

(** C10, amended, on three calls. *)
Lemma count_sum_witness :
  let ht0 := mkHashTable 4096 (replicate 4096 []) in
  let ws := [Some (text "to"); Some (text "be"); Some (text "to")] in
  let r := insert_all true (Some ht0) ws [] in
  4096 ≤ INT_MAX ∧
  no_failure [] ∧
  create_hash_table 4096 [] = (Some ht0, []) ∧
  Forall is_Some ws ∧
  (∀ w, word_occurrences w ws ≤ INT_MAX) ∧
  insert_all true (Some ht0) ws [] = (r.1, r.2) ∧
  ∃ t, r.1 = Some t ∧ sum_counts t = Z.of_nat (length ws).
Proof.
  intros ht0 ws r.
  assert (H1 : 4096 ≤ INT_MAX) by (unfold INT_MAX; lia).
  assert (H2 : no_failure []) by constructor.
  assert (H4 : Forall is_Some ws) by (repeat constructor; eauto).
  assert (H5 : ∀ w, word_occurrences w ws ≤ INT_MAX).
  { intros w. pose proof (word_occurrences_le_length w ws) as Hle.
    simpl in Hle. unfold INT_MAX. lia. }
  assert (H6 : insert_all true (Some ht0) ws [] = (r.1, r.2)) by (vm_compute; reflexivity).
  split_and!; [exact H1 | exact H2 | reflexivity | exact H4 | exact H5 | exact H6 |].
  exact (count_sum true 4096 [] ht0 [] ws r.1 r.2 H1 H2 eq_refl H4 H5 H6).
Defined.

(** * Concrete runs of the further properties *)

(** X1 on three lines. *)
Lemma line_count_newlines_witness :
  let input := text "one" ++ [x0a] ++ text "two" ++ [x0a] ++ text "three" ++ [x0a] in
  let fs : filesystem := λ _, Some input in
  let s := fresh_stats "lines.txt" None in
  fs (filename s) = Some input ∧
  stats_ok s ∧
  ∃ s' o',
    analyze_file true fs s [] = (0, s', o') ∧
    line_count s' = to_int (line_count s + occurrences 10 input) ∧
    (line_count s = 0 → occurrences 10 input ≤ INT_MAX →
     line_count s' = occurrences 10 input).
Proof.
  intros input fs s.
  assert (H1 : fs (filename s) = Some input) by reflexivity.
  assert (H2 : stats_ok s) by apply fresh_stats_ok.
  split_and!; [exact H1 | exact H2 |].
  exact (line_count_newlines true fs s [] input H1 H2).
Defined.

(** X2 on a line of four words. *)
Lemma word_count_word_starts_witness :
  let input := text "  Hello,  world! it's 42" in
  let fs : filesystem := λ _, Some input in
  let s := fresh_stats "words.txt" None in
  fs (filename s) = Some input ∧
  stats_ok s ∧
  ∃ s' o',
    analyze_file true fs s [] = (0, s', o') ∧
    word_count s' = to_int (word_count s + word_starts input) ∧
    (word_count s = 0 → word_starts input ≤ INT_MAX →
     word_count s' = word_starts input).
Proof.
  intros input fs s.
  assert (H1 : fs (filename s) = Some input) by reflexivity.
  assert (H2 : stats_ok s) by apply fresh_stats_ok.
  split_and!; [exact H1 | exact H2 |].
  exact (word_count_word_starts true fs s [] input H1 H2).
Defined.

(** X3 on statistics that a first file has already been counted into. *)
Lemma counters_accumulate_witness :
  let input := text "abba" in
  let fs : filesystem := λ _, Some input in
  let s := mkAppStats "second.txt" 7 2 1 (replicate 256 3) None in
  fs (filename s) = Some input ∧
  stats_ok s ∧
  ∃ s' o',
    analyze_file true fs s [] = (0, s', o') ∧
    char_count s' = to_llong (char_count s + Z.of_nat (length input)) ∧
    length (char_freq s') = length (char_freq s) ∧
    (∀ i x, char_freq s !! i = Some x →
            char_freq s' !! i = Some (to_int (x + occurrences (Z.of_nat i) input))) ∧
    (∀ i, occurrences (Z.of_nat i) input = 0 → char_freq s' !! i = char_freq s !! i).
Proof.
  intros input fs s.
  assert (H1 : fs (filename s) = Some input) by reflexivity.
  assert (H2 : stats_ok s).
  { unfold stats_ok, is_llong, is_int, INT_MAX. simpl.
    split_and!; try lia. apply (Forall_replicate _ 256). lia. }
  split_and!; [exact H1 | exact H2 |].
  exact (counters_accumulate true fs s [] input H1 H2).
Defined.

(** X4 on an empty file. *)
Lemma empty_file_unchanged_witness :
  let fs : filesystem := λ _, Some [] in
  let s := fresh_stats "empty.txt" (Some (mkHashTable 4096 (replicate 4096 []))) in
  fs (filename s) = Some [] ∧ analyze_file true fs s [false] = (0, s, [false]).
Proof.
  intros fs s.
  assert (H1 : fs (filename s) = Some []) by reflexivity.
  split; [exact H1|]. exact (empty_file_unchanged true fs s [false] H1).
Defined.

(** X5 on a store of 17 buckets, with an allocator that fails at once. *)
Lemma analysis_keeps_store_invariant_witness :
  let input := text "the cat and the hat" in
  let fs : filesystem := λ _, Some input in
  let t := mkHashTable 17 (replicate 17 []) in
  let s := fresh_stats "cat.txt" (Some t) in
  fs (filename s) = Some input ∧
  word_counts s = Some t ∧
  wf true t ∧
  ∃ s' o' t',
    analyze_file true fs s [false] = (0, s', o') ∧
    filename s' = filename s ∧
    word_counts s' = Some t' ∧
    wf true t' ∧ size t' = size t ∧ length (table t') = length (table t).
Proof.
  intros input fs t s.
  assert (H1 : fs (filename s) = Some input) by reflexivity.
  assert (H2 : word_counts s = Some t) by reflexivity.
  assert (H3 : wf true t).
  { apply (create_hash_table_wf true 17 [] t []); [unfold INT_MAX; lia | reflexivity]. }
  split_and!; [exact H1 | exact H2 | exact H3 |].
  exact (analysis_keeps_store_invariant true fs s [false] input t H1 H2 H3).
Defined.

(** X6 on a fresh store. *)
Lemma store_holds_lowercase_words_witness :
  let input := text "R2-D2 met C-3PO" in
  let fs : filesystem := λ _, Some input in
  let t := mkHashTable 17 (replicate 17 []) in
  let s := fresh_stats "droids.txt" (Some t) in
  fs (filename s) = Some input ∧
  word_counts s = Some t ∧
  wf true t ∧
  Forall token_ok (word <$> entries t) ∧
  Forall token_ok (tokens input) ∧
  ∃ s' o' t',
    analyze_file true fs s [] = (0, s', o') ∧
    word_counts s' = Some t' ∧
    Forall token_ok (word <$> entries t').
Proof.
  intros input fs t s.
  assert (H1 : fs (filename s) = Some input) by reflexivity.
  assert (H2 : word_counts s = Some t) by reflexivity.
  assert (H3 : wf true t).
  { apply (create_hash_table_wf true 17 [] t []); [unfold INT_MAX; lia | reflexivity]. }
  assert (H4 : Forall token_ok (word <$> entries t)) by constructor.
  refine (conj H1 (conj H2 (conj H3 (conj H4 _)))).
  exact (store_holds_lowercase_words true fs s [] input t H1 H2 H3 H4).
Defined.

(** X7 on a fresh store. *)
Lemma word_frequencies_witness :
  let input := text "A rose is a rose is a rose." in
  let fs : filesystem := λ _, Some input in
  let t := mkHashTable 17 (replicate 17 []) in
  let s := fresh_stats "rose.txt" (Some t) in
  fs (filename s) = Some input ∧
  word_counts s = Some t ∧
  wf true t ∧
  no_failure [] ∧
  ∃ s' o' t',
    analyze_file true fs s [] = (0, s', o') ∧
    word_counts s' = Some t' ∧
    ∀ w, let k := word_occurrences w (Some <$> tokens input) in
         store_map t' !! w =
           (if decide (k = 0) then store_map t !! w
            else Some (to_int (default 0 (store_map t !! w) + k))) ∧
         (entries t = [] → k ≤ INT_MAX →
          store_map t' !! w = if decide (k = 0) then None else Some k).
Proof.
  intros input fs t s.
  assert (H1 : fs (filename s) = Some input) by reflexivity.
  assert (H2 : word_counts s = Some t) by reflexivity.
  assert (H3 : wf true t).
  { apply (create_hash_table_wf true 17 [] t []); [unfold INT_MAX; lia | reflexivity]. }
  assert (H4 : no_failure []) by constructor.
  split_and!; [exact H1 | exact H2 | exact H3 | exact H4 |].
  exact (word_frequencies true fs s [] input t H1 H2 H3 H4).
Defined.

(** X8 on two words and a comma. *)
Lemma delimiter_separates_tokens_witness :
  let a := text "Hello" in
  let d := ","%byte in
  let b := text "World" in
  let fs : filesystem := λ _, Some (a ++ d :: b) in
  let s := fresh_stats "hello.txt" (Some (mkHashTable 17 (replicate 17 []))) in
  fs (filename s) = Some (a ++ d :: b) ∧
  isalpha (uchar_to_int d) = false ∧
  (∃ s' o',
     analyze_file true fs s [] = (0, s', o') ∧
     (word_counts s', o') =
       insert_all true (word_counts s) (Some <$> tokens a ++ tokens b) []) ∧
  tokens (a ++ d :: b) = tokens a ++ tokens b ∧
  tokens [] = [] ∧
  (∀ run, run ≠ [] → Forall alphabetic run →
          tokens run = [take 99 (fold_case <$> run)]).
Proof.
  intros a d b fs s.
  assert (H1 : fs (filename s) = Some (a ++ d :: b)) by reflexivity.
  assert (H2 : isalpha (uchar_to_int d) = false) by reflexivity.
  split; [exact H1|]. split; [exact H2|].
  exact (delimiter_separates_tokens true fs s [] a d b H1 H2).
Defined.

(** X9 on a fresh store of 4096 buckets. *)
Lemma counts_add_up_to_tokens_witness :
  let input := text "to be or not to be" in
  let fs : filesystem := λ _, Some input in
  let ht := mkHashTable 4096 (replicate 4096 []) in
  fs "hamlet.txt"%string = Some input ∧
  4096 ≤ INT_MAX ∧
  no_failure [] ∧
  create_hash_table 4096 [] = (Some ht, []) ∧
  (∀ w, word_occurrences w (Some <$> tokens input) ≤ INT_MAX) ∧
  ∃ s' o' t,
    analyze_file true fs (fresh_stats "hamlet.txt" (Some ht)) [] = (0, s', o') ∧
    word_counts s' = Some t ∧
    sum_counts t = Z.of_nat (length (tokens input)).
Proof.
  intros input fs ht.
  assert (H1 : fs "hamlet.txt"%string = Some input) by reflexivity.
  assert (H2 : 4096 ≤ INT_MAX) by (unfold INT_MAX; lia).
  assert (H3 : no_failure []) by constructor.
  assert (H4 : create_hash_table 4096 [] = (Some ht, [])) by reflexivity.
  assert (H5 : ∀ w, word_occurrences w (Some <$> tokens input) ≤ INT_MAX).
  { intros w. pose proof (word_occurrences_le_length w (Some <$> tokens input)) as Hle.
    rewrite length_fmap in Hle. change (length (tokens input)) with 6%nat in Hle.
    unfold INT_MAX. lia. }
  split_and!; [exact H1 | exact H2 | exact H3 | exact H4 | exact H5 |].
  exact (counts_add_up_to_tokens true fs "hamlet.txt"%string 4096 [] ht [] input
           H1 H2 H3 H4 H5).
Defined.

(** X10 on digits and punctuation. *)
Lemma no_letters_no_insertion_witness :
  let input := text "2 + 2 = 4 (!)" in
  let fs : filesystem := λ _, Some input in
  let s := fresh_stats "sum.txt" (Some (mkHashTable 17 (replicate 17 []))) in
  fs (filename s) = Some input ∧
  Forall (λ b, isalpha (uchar_to_int b) = false) input ∧
  ∃ s', analyze_file true fs s [false] = (0, s', [false]) ∧
        word_counts s' = word_counts s.
Proof.
  intros input fs s.
  assert (H1 : fs (filename s) = Some input) by reflexivity.
  assert (H2 : Forall (λ b, isalpha (uchar_to_int b) = false) input)
    by (repeat constructor).
  split_and!; [exact H1 | exact H2 |].
  exact (no_letters_no_insertion true fs s [false] input H1 H2).
Defined.

(** X11 on a sentence and the same sentence in capitals. *)
Lemma case_insensitive_store_witness :
  let input1 := text "The cat sat." in
  let input2 := text "THE CAT SAT." in
  let fs1 : filesystem := λ _, Some input1 in
  let fs2 : filesystem := λ _, Some input2 in
  let s := fresh_stats "cat.txt" (Some (mkHashTable 17 (replicate 17 []))) in
  fs1 (filename s) = Some input1 ∧
  fs2 (filename s) = Some input2 ∧
  same_case input1 input2 ∧
  tokens input1 = tokens input2 ∧
  ∃ s1 s2 o',
    analyze_file true fs1 s [] = (0, s1, o') ∧
    analyze_file true fs2 s [] = (0, s2, o') ∧
    word_counts s1 = word_counts s2.
Proof.
  intros input1 input2 fs1 fs2 s.
  assert (H1 : fs1 (filename s) = Some input1) by reflexivity.
  assert (H2 : fs2 (filename s) = Some input2) by reflexivity.
  assert (H3 : same_case input1 input2) by (repeat constructor).
  split_and!; [exact H1 | exact H2 | exact H3 | |];
    apply (case_insensitive_store true fs1 fs2 s [] input1 input2 H1 H2 H3).
Defined.

(** X12 with a null store and an allocator that would fail. *)
Lemma null_store_stays_null_witness :
  let input := text "no store here" in
  let fs : filesystem := λ _, Some input in
  let s := fresh_stats "null.txt" None in
  fs (filename s) = Some input ∧
  word_counts s = None ∧
  ∃ s', analyze_file true fs s [false] = (0, s', [false]) ∧ word_counts s' = None.
Proof.
  intros input fs s.
  assert (H1 : fs (filename s) = Some input) by reflexivity.
  assert (H2 : word_counts s = None) by reflexivity.
  split_and!; [exact H1 | exact H2 |].
  exact (null_store_stays_null true fs s [false] input H1 H2).
Defined.

(** X13 with a store and an allocator that works against a null store and
    an allocator that fails. *)
Lemma counters_ignore_store_witness :
  let input := text "same bytes, other store" in
  let fs : filesystem := λ _, Some input in
  let s1 := fresh_stats "a.txt" (Some (mkHashTable 17 (replicate 17 []))) in
  let s2 := fresh_stats "b.txt" None in
  fs (filename s1) = Some input ∧
  fs (filename s2) = Some input ∧
  char_count s1 = char_count s2 ∧
  word_count s1 = word_count s2 ∧
  line_count s1 = line_count s2 ∧
  char_freq s1 = char_freq s2 ∧
  ∃ s1' s2' o1' o2',
    analyze_file true fs s1 [] = (0, s1', o1') ∧
    analyze_file true fs s2 [false; false] = (0, s2', o2') ∧
    char_count s1' = char_count s2' ∧
    word_count s1' = word_count s2' ∧
    line_count s1' = line_count s2' ∧
    char_freq s1' = char_freq s2'.
Proof.
  intros input fs s1 s2.
  split_and!; [reflexivity | reflexivity | reflexivity | reflexivity | reflexivity
              | reflexivity |].
  exact (counters_ignore_store true fs fs s1 s2 [] [false; false] input
           eq_refl eq_refl eq_refl eq_refl eq_refl eq_refl).
Defined.

(** X15 on a store of two buckets that holds three words, with a fourth
    word whose node is allocated. *)
Lemma insert_word_keeps_invariant_witness :
  let ht := mkHashTable 2 [[mkNode (text "c") 5; mkNode (text "a") 1];
                           [mkNode (text "b") 3]] in
  let w := Some (text "dog") in
  wf true ht ∧
  ∃ t' o',
    insert_word true (Some ht) w [true; true] = (Some t', o') ∧
    wf true t' ∧ size t' = size ht ∧ length (table t') = length (table ht) ∧
    ∀ w0, w = Some w0 → (Z.to_nat (bucket_index true ht w0) < length (table ht))%nat.
Proof.
  intros ht w.
  assert (H1 : wf true ht).
  { split_and!.
    - split; [unfold INT_MAX; simpl; lia | reflexivity].
    - intros [|[|i]] chain n Hi Hn; [| |done]; injection Hi as <-;
        repeat (apply elem_of_cons in Hn as [->|Hn]);
        try (by apply elem_of_nil in Hn); reflexivity.
    - refine (bool_decide_unpack _ _). vm_compute. exact I. }
  split; [exact H1|].
  exact (insert_word_keeps_invariant true ht w [true; true] H1).
Defined.

(** X16 on a store that holds the word, with an allocator that would
    fail. *)
Lemma insert_word_lookup_witness :
  let w := text "cat" in
  let ht := mkHashTable 1 [[mkNode w 41]] in
  let r := insert_word true (Some ht) (Some w) [false] in
  wf true ht ∧
  insert_word true (Some ht) (Some w) [false] = (r.1, r.2) ∧
  ∃ t', r.1 = Some t' ∧
    (∀ k, k ≠ w → store_map t' !! k = store_map ht !! k) ∧
    match store_map ht !! w with
    | Some c => store_map t' !! w = Some (to_int (c + 1)) ∧ r.2 = [false]
    | None => (node_alloc [false] = (true, r.2) ∧ store_map t' !! w = Some 1) ∨
              (node_alloc [false] = (false, r.2) ∧ t' = ht)
    end.
Proof.
  intros w ht r.
  assert (H1 : wf true ht).
  { split_and!.
    - split; [unfold INT_MAX; simpl; lia | reflexivity].
    - intros [|i] chain n Hi Hn; [|by destruct i].
      injection Hi as <-. apply list_elem_of_singleton in Hn as ->. reflexivity.
    - repeat constructor. apply not_elem_of_nil. }
  assert (H2 : insert_word true (Some ht) (Some w) [false] = (r.1, r.2))
    by (vm_compute; reflexivity).
  split_and!; [exact H1 | exact H2 |].
  exact (insert_word_lookup true ht w [false] r.1 r.2 H1 H2).
Defined.

(** X17 on a chain of two nodes, with a third word that lands in it. *)
Lemma insert_word_chain_witness :
  let w := text "bat" in
  let ht := mkHashTable 1 [[mkNode (text "cat") 2; mkNode (text "rat") 1]] in
  let r := insert_word true (Some ht) (Some w) [] in
  shaped ht ∧
  insert_word true (Some ht) (Some w) [] = (r.1, r.2) ∧
  ∃ t' chain chain',
    r.1 = Some t' ∧ size t' = size ht ∧
    table ht !! Z.to_nat (bucket_index true ht w) = Some chain ∧
    table t' = <[Z.to_nat (bucket_index true ht w) := chain']> (table ht) ∧
    ((∃ c1 n c2,
        chain = c1 ++ (n :: c2) ∧ (w ∉ word <$> c1) ∧ word n = w ∧
        chain' = c1 ++ (mkNode w (to_int (count n + 1)) :: c2) ∧
        word <$> chain' = word <$> chain ∧ r.2 = []) ∨
     ((w ∉ word <$> chain) ∧
      ((node_alloc [] = (true, r.2) ∧ chain' = mkNode w 1 :: chain) ∨
       (node_alloc [] = (false, r.2) ∧ chain' = chain ∧ t' = ht)))).
Proof.
  intros w ht r.
  assert (H1 : shaped ht) by (split; [unfold INT_MAX; simpl; lia | reflexivity]).
  assert (H2 : insert_word true (Some ht) (Some w) [] = (r.1, r.2))
    by (vm_compute; reflexivity).
  split_and!; [exact H1 | exact H2 |].
  exact (insert_word_chain true ht w [] r.1 r.2 H1 H2).
Defined.

(** X18 on three words in two orders. *)
Lemma insertion_order_irrelevant_witness :
  let t := mkHashTable 17 (replicate 17 []) in
  let ws1 := [Some (text "to"); Some (text "be"); Some (text "to")] in
  let ws2 := [Some (text "be"); Some (text "to"); Some (text "to")] in
  let r1 := insert_all true (Some t) ws1 [] in
  let r2 := insert_all true (Some t) ws2 [true] in
  wf true t ∧
  ws1 ≡ₚ ws2 ∧
  no_failure [] ∧ no_failure [true] ∧
  insert_all true (Some t) ws1 [] = (r1.1, r1.2) ∧
  insert_all true (Some t) ws2 [true] = (r2.1, r2.2) ∧
  ∃ t1 t2, r1.1 = Some t1 ∧ r2.1 = Some t2 ∧ store_map t1 = store_map t2.
Proof.
  intros t ws1 ws2 r1 r2.
  assert (H1 : wf true t).
  { apply (create_hash_table_wf true 17 [] t []); [unfold INT_MAX; lia | reflexivity]. }
  assert (H2 : ws1 ≡ₚ ws2) by apply perm_swap.
  assert (H3 : no_failure []) by constructor.
  assert (H4 : no_failure [true]) by (repeat constructor).
  assert (H5 : insert_all true (Some t) ws1 [] = (r1.1, r1.2)) by (vm_compute; reflexivity).
  assert (H6 : insert_all true (Some t) ws2 [true] = (r2.1, r2.2))
    by (vm_compute; reflexivity).
  refine (conj H1 (conj H2 (conj H3 (conj H4 (conj H5 (conj H6 _)))))).
  exact (insertion_order_irrelevant true t ws1 ws2 [] [true] r1.1 r2.1 r1.2 r2.2
           H1 H2 H3 H4 H5 H6).
Defined.

(** X19 on a command line with an option and an output file. *)
Lemma command_line_accepts_witness :
  let argv := ["analyzer"; "-o"; "-out.txt"; "--freq"; "book.txt"]%string in
  let opts := mkAnalysisOptions false true true (Some "-out.txt"%string) in
  command_line argv = Some (opts, "book.txt"%string) ∧
  flags_shown opts = true ∧
  show_char_freq opts = show_word_freq opts ∧
  "book.txt"%string ∈ drop 1 argv ∧
  starts_with_dash "book.txt" = false.
Proof.
  intros argv opts.
  assert (H1 : command_line argv = Some (opts, "book.txt"%string)) by reflexivity.
  split; [exact H1|].
  exact (command_line_accepts argv opts "book.txt"%string H1).
Defined.

(** X20 on the same command line. *)
Lemma command_line_output_witness :
  let argv := ["analyzer"; "-o"; "-out.txt"; "--freq"; "book.txt"]%string in
  let opts := mkAnalysisOptions false true true (Some "-out.txt"%string) in
  command_line argv = Some (opts, "book.txt"%string) ∧
  (output_filename opts = None ↔ "-o"%string ∉ drop 1 argv) ∧
  (∀ out, output_filename opts = Some out →
          ∃ l1 l2, drop 1 argv = l1 ++ "-o"%string :: out :: l2).
Proof.
  intros argv opts.
  assert (H1 : command_line argv = Some (opts, "book.txt"%string)) by reflexivity.
  split; [exact H1|].
  exact (command_line_output argv opts "book.txt"%string H1).
Defined.

(** X21 with an allocator that fails for the first word and then works. *)
Lemma never_overcounts_witness :
  let input := text "to be or not to be" in
  let fs : filesystem := λ _, Some input in
  let ht := mkHashTable 4096 (replicate 4096 []) in
  fs "hamlet.txt"%string = Some input ∧
  4096 ≤ INT_MAX ∧
  create_hash_table 4096 [] = (Some ht, []) ∧
  (∀ w, word_occurrences w (Some <$> tokens input) ≤ INT_MAX) ∧
  ∃ s' o' t,
    analyze_file true fs (fresh_stats "hamlet.txt" (Some ht)) [false] = (0, s', o') ∧
    word_counts s' = Some t ∧
    ∀ n, n ∈ entries t →
         word n ∈ tokens input ∧
         1 ≤ count n ≤ word_occurrences (word n) (Some <$> tokens input).
Proof.
  intros input fs ht.
  assert (H1 : fs "hamlet.txt"%string = Some input) by reflexivity.
  assert (H2 : 4096 ≤ INT_MAX) by (unfold INT_MAX; lia).
  assert (H3 : create_hash_table 4096 [] = (Some ht, [])) by reflexivity.
  assert (H4 : ∀ w, word_occurrences w (Some <$> tokens input) ≤ INT_MAX).
  { intros w. pose proof (word_occurrences_le_length w (Some <$> tokens input)) as Hle.
    rewrite length_fmap in Hle. change (length (tokens input)) with 6%nat in Hle.
    unfold INT_MAX. lia. }
  refine (conj H1 (conj H2 (conj H3 (conj H4 _)))).
  exact (never_overcounts true fs "hamlet.txt"%string 4096 [] ht [] [false] input
           H1 H2 H3 H4).
Defined.

(** X23 on two short files. *)
Lemma analysis_composes_witness :
  let a := text "one two " in
  let b := text "two three" in
  let fs1 : filesystem := λ _, Some a in
  let fs2 : filesystem := λ _, Some b in
  let fs12 : filesystem := λ _, Some (a ++ b) in
  let s := fresh_stats "parts.txt" (Some (mkHashTable 17 (replicate 17 []))) in
  let r := analyze_file true fs1 s [] in
  fs1 (filename s) = Some a ∧
  fs2 (filename s) = Some b ∧
  fs12 (filename s) = Some (a ++ b) ∧
  from_option (λ d, isspace (uchar_to_int d) = true) True (last a) ∧
  analyze_file true fs1 s [] = (0, r.1.2, r.2) ∧
  analyze_file true fs2 r.1.2 r.2 = analyze_file true fs12 s [].
Proof.
  intros a b fs1 fs2 fs12 s r.
  assert (H1 : fs1 (filename s) = Some a) by reflexivity.
  assert (H2 : fs2 (filename s) = Some b) by reflexivity.
  assert (H3 : fs12 (filename s) = Some (a ++ b)) by reflexivity.
  assert (H4 : from_option (λ d, isspace (uchar_to_int d) = true) True (last a))
    by reflexivity.
  assert (H5 : analyze_file true fs1 s [] = (0, r.1.2, r.2)) by (vm_compute; reflexivity).
  refine (conj H1 (conj H2 (conj H3 (conj H4 (conj H5 _))))).
  exact (analysis_composes true fs1 fs2 fs12 s [] a b r.1.2 r.2 H1 H2 H3 H4 H5).
Defined.
